(** * rax-test.c: the oracle hash table, the key generators and the fuzz driver

    A shallow embedding of [src/rax-test.c].  Fixed-width C integers are
    integers of [Z] with their wrap-around written out, a key (a pointer
    with an explicit length) is the list of the bytes it designates, a
    bucket chain (a [next]-linked list owned by its bucket) is the list
    of its nodes in link order, and the bucket array is a list indexed
    by the hash. *)

From Stdlib Require Import ZArith Lia.
From Stdlib Require Import Strings.Byte.
From stdpp Require Import base tactics option list numbers strings gmap.

Local Open Scope Z_scope.

(** ** Machine integers *)

Module Int.

Definition uint16 (x : Z) : Z := x mod 2 ^ 16.
Definition uint32 (x : Z) : Z := x mod 2 ^ 32.
Definition uint64 (x : Z) : Z := x mod 2 ^ 64.

(** The value of an [unsigned char]. *)
Definition uchar (b : byte) : Z := Z.of_N (Byte.to_N b).

(** The [unsigned char] a C integer converts to. *)
Definition to_uchar (x : Z) : byte :=
  match Byte.of_N (Z.to_N (x mod 256)) with
  | Some b => b
  | None => x00
  end.

End Int.

Import Int.

#[global] Instance byte_eq_dec : EqDecision byte := Byte.byte_eq_dec.

(** ** The oracle hash table *)

Definition HT_TABLE_SIZE : Z := 100000.

(** [struct htNode]; the [next] field is the rest of the chain. *)
Record htNode := mkNode {
  keylen : Z;
  key : list byte;
  data : Z
}.

Abbreviation chain := (list htNode).

(** [struct ht]. *)
Record hashtable := mkHt {
  numele : Z;
  table : list chain
}.

(** [s[i]] for the key [s]. *)
Definition key_at (s : list byte) (i : nat) : Z :=
  match s !! i with
  | Some b => uchar b
  | None => 0
  end.

(** The [for] loop of [htHash]: [n] iterations are left, the next one
    reads [s[i]]. *)
Fixpoint htHash_loop (s : list byte) (n i : nat) (hash : Z) : Z :=
  match n with
  | O => hash
  | S n' => htHash_loop s n' (S i) (uint32 (hash * 33 + key_at s i))
  end.

Definition htHash (s : list byte) : Z :=
  htHash_loop s (length s) 0 5381 mod HT_TABLE_SIZE.

(** [n->keylen == len && memcmp(n->key,s,len) == 0]. *)
Definition node_matches (n : htNode) (s : list byte) : bool :=
  bool_decide (keylen n = Z.of_nat (length s))
  && bool_decide (take (length s) (key n) = s).

(** The [while] loop of [htRawLookup].  The node pointer [n] is the part
    of the chain it heads; [parentlink] counts the links followed, so it
    names the link that points at [n]: link 0 is the bucket slot, link
    [S p] the [next] field of the node at position [p]. *)
Fixpoint htRawLookup_loop (n : chain) (parentlink : nat) (s : list byte)
  : option htNode * nat :=
  match n with
  | [] => (None, parentlink)
  | node :: next =>
      if node_matches node s then (Some node, parentlink)
      else htRawLookup_loop next (S parentlink) s
  end.

(** [t->table[h]]. *)
Definition bucket (t : hashtable) (h : Z) : chain := table t !!! Z.to_nat h.

(** [htRawLookup] yields the node found (if any), the hash and the
    parent link; the position of the node found is that of its parent
    link. *)
Definition htRawLookup (t : hashtable) (s : list byte)
  : option htNode * Z * nat :=
  let h := htHash s in
  let '(n, parentlink) := htRawLookup_loop (bucket t h) 0 s in
  (n, h, parentlink).

(** [htNew] allocates with [malloc] and stores to [numele] only: the
    bucket array keeps whatever the block [mem] handed out by the
    allocator holds. *)
Definition htNew (mem : list chain) : hashtable :=
  {| numele := 0; table := mem |}.

(** A block of null pointers, as a fresh zero-filled page is. *)
Definition zeroed : list chain := replicate (Z.to_nat HT_TABLE_SIZE) [].

Definition set_data (n : htNode) (d : Z) : htNode :=
  {| keylen := keylen n; key := key n; data := d |}.

(** [htAdd]: the table after the call and the value returned.  A new
    node owns a block with a copy of the [len] key bytes ([malloc] and
    [memcpy]), so its [key] is the byte sequence itself.  The store
    [n->data = data] goes to the node found, the one behind link [link]
    of its chain. *)
Definition htAdd (t : hashtable) (s : list byte) (d : Z) : hashtable * Z :=
  let '(n, hash, link) := htRawLookup t s in
  match n with
  | None =>
      let n := {| keylen := Z.of_nat (length s); key := s; data := d |} in
      ({| numele := uint64 (numele t + 1);
          table := <[Z.to_nat hash := n :: bucket t hash]> (table t) |}, 1)
  | Some n =>
      ({| numele := numele t;
          table := <[Z.to_nat hash :=
                      <[link := set_data n d]> (bucket t hash)]> (table t) |}, 0)
  end.

(** [htRem]: the table after the call and the value returned;
    [*parentlink = n->next] drops the node behind link [parentlink]. *)
Definition htRem (t : hashtable) (s : list byte) : hashtable * Z :=
  let '(n, hash, parentlink) := htRawLookup t s in
  match n with
  | None => (t, 0)
  | Some _ =>
      ({| numele := numele t;
          table := <[Z.to_nat hash :=
                      delete parentlink (bucket t hash)]> (table t) |}, 1)
  end.

Section Find.

(** The pointer [htNotFound]: the address of a string literal. *)
Variable htNotFound : Z.

Definition htFind (t : hashtable) (s : list byte) : Z :=
  let '(n, _, _) := htRawLookup t s in
  match n with
  | None => htNotFound
  | Some n => data n
  end.

End Find.

(** *** Table states *)

(** All entries reachable from the bucket array. *)
Definition entries (t : hashtable) : list htNode := concat (table t).

(** Key identity: the length and the bytes. *)
Definition node_key (n : htNode) : Z * list byte := (keylen n, key n).

Definition has_key (t : hashtable) (s : list byte) : Prop :=
  ∃ n, n ∈ entries t ∧ node_key n = (Z.of_nat (length s), s).

Definition no_dup_keys (t : hashtable) : Prop := NoDup (node_key <$> entries t).

(** A node of bucket [h] is well formed when [keylen] is the size of its
    key block and the key hashes to [h]. *)
Definition wf_node (h : nat) (n : htNode) : Prop :=
  keylen n = Z.of_nat (length (key n)) ∧ htHash (key n) = Z.of_nat h.

(** A table state: a counter in the range of [uint64_t] and
    [HT_TABLE_SIZE] buckets of well-formed nodes. *)
Definition wf_table (t : hashtable) : Prop :=
  0 ≤ numele t < 2 ^ 64 ∧
  length (table t) = Z.to_nat HT_TABLE_SIZE ∧
  ∀ h c n, table t !! h = Some c → n ∈ c → wf_node h n.

(** Keys written as string literals. *)
Definition bytes (s : string) : list byte := String.list_byte_of_string s.

(** ** Key generation *)

(** One round of the loop of [int2int] on the halves [(l, r)]; the
    operands are promoted to [int], where nothing overflows, and each
    assignment converts back to [uint16_t]. *)
Definition int2int_round (lr : Z * Z) : Z * Z :=
  let '(l, r) := lr in
  let nl := uint16 r in
  let F := uint16 (Z.land (Z.lxor (r * 31 + Z.shiftr r 5 + 7 * 371) r) 0xffff) in
  let r := uint16 (Z.lxor l F) in
  let l := nl in
  (l, r).

(** [int2int]: eight rounds; [(r<<16)|l] is converted to the [uint32_t]
    result. *)
Definition int2int (input : Z) : Z :=
  let l := uint16 (Z.land input 0xffff) in
  let r := uint16 (Z.shiftr input 16) in
  let '(l, r) := Nat.iter 8 int2int_round (l, r) in
  uint32 (Z.lor (Z.shiftl r 16) l).

(** The character set of [int2alphakey]. *)
Definition set : list byte :=
  bytes "ABCDEFGHIJKLMNOPQRSTUVWXYZabcdefghijklmnopqrstuvwxyz0123456789".
Definition setlen : Z := 62.

(** [set[d]]. *)
Definition set_at (d : Z) : byte := default x00 (set !! Z.to_nat d).

(** The [while (len < maxlen)] loop of [int2alphakey]: [n] is
    [maxlen - len], the number of iterations the loop condition still
    allows. *)
Fixpoint int2alphakey_loop (n : nat) (s : list byte) (len i : Z)
  : list byte * Z :=
  match n with
  | O => (s, len)
  | S n' =>
      let s := <[Z.to_nat len := set_at (i mod setlen)]> s in
      let len := len + 1 in
      let i := i / setlen in
      if i =? 0 then (s, len) else int2alphakey_loop n' s len i
  end.

(** [int2alphakey] on the buffer [s] of capacity [maxlen]: the buffer
    after the call and the length returned.  [i] is the value of the
    [uint32_t] parameter, so [0 ≤ i < 2 ^ 32]: the one caller,
    [int2key], passes [int2int i], which is in that range
    (lemma [int2int_range]). *)
Definition int2alphakey (s : list byte) (maxlen i : Z) : list byte * Z :=
  if maxlen =? 0 then (s, 0)
  else
    let maxlen := maxlen - 1 in
    let '(s, len) := int2alphakey_loop (Z.to_nat maxlen) s 0 i in
    (<[Z.to_nat len := x00]> s, len).

(** Digits of [v] in a base, least significant first, at most [n] of
    them, with no leading zero digit. *)
Fixpoint digits_lsb (base : Z) (dig : Z → byte) (n : nat) (v : Z) : list byte :=
  match n with
  | O => []
  | S n' =>
      dig (v mod base)
      :: (if v / base =? 0 then [] else digits_lsb base dig n' (v / base))
  end.

(** The character of a decimal digit. *)
Definition digit (d : Z) : byte := to_uchar (48 + d).

(** What ["%lu"] prints for an [unsigned long] (64 bits, at most 20
    digits). *)
Definition decimal (v : Z) : list byte := rev (digits_lsb 10 digit 20 v).

(** The C library's [snprintf(s, maxlen, "%lu", v)]: at most
    [maxlen - 1] characters of the output and a terminating zero are
    stored when [maxlen] is not 0, and the value returned is the length
    of the whole output, stored or not. *)
Definition snprintf_lu (s : list byte) (maxlen v : Z) : list byte * Z :=
  let out := decimal v in
  let n := Z.of_nat (length out) in
  if maxlen =? 0 then (s, n)
  else
    let w := take (Z.to_nat (Z.min n (maxlen - 1))) out ++ [x00] in
    (w ++ drop (length w) s, n).

(** The ambient stream of [rand()]: the draws to come and how many
    were made. *)
Record rand_state := mkRand {
  draws : nat → Z;
  drawn : nat
}.

(** [RAND_MAX] as the C library of the platform defines it. *)
Definition RAND_MAX : Z := 2147483647.

(** [rand()]: a value between 0 and [RAND_MAX]. *)
Definition rand (g : rand_state) : Z * rand_state :=
  (draws g (drawn g) mod (RAND_MAX + 1),
   {| draws := draws g; drawn := S (drawn g) |}).

Definition KEY_INT : Z := 0.
Definition KEY_UNIQUE_ALPHA : Z := 1.
Definition KEY_RANDOM : Z := 2.

(** The [for (i = 0; i < r; i++) s[i] = rand()&0xff] loop of the
    [KEY_RANDOM] branch, with [n = r - i] iterations left. *)
Fixpoint int2key_fill (n : nat) (i : Z) (s : list byte) (g : rand_state)
  : list byte * rand_state :=
  match n with
  | O => (s, g)
  | S n' =>
      let '(x, g) := rand g in
      int2key_fill n' (i + 1) (<[Z.to_nat i := to_uchar (Z.land x 0xff)]> s) g
  end.

(** [int2key] on the buffer [s] of capacity [maxlen]: the buffer after
    the call, the length returned and the random stream; [None] where
    the C program has no defined result ([rand() % maxlen] with
    [maxlen] 0).  [rand() % maxlen] is at most [RAND_MAX], so the
    conversion to [int] keeps it.  [i] is the value of the [uint32_t]
    parameter, so [0 ≤ i < 2 ^ 32]: the one caller, [fuzzTest], passes
    its loop counter converted to [uint32_t] ([uint32 i] in
    [fuzzTest_insert]), and [(unsigned long)i] is then [i] itself. *)
Definition int2key (s : list byte) (maxlen i mode : Z) (g : rand_state)
  : option (list byte * Z * rand_state) :=
  if mode =? KEY_INT then
    let '(s, n) := snprintf_lu s maxlen i in Some (s, n, g)
  else if mode =? KEY_UNIQUE_ALPHA then
    let i := int2int i in
    let '(s, len) := int2alphakey s maxlen i in Some (s, len, g)
  else if mode =? KEY_RANDOM then
    if maxlen =? 0 then None
    else
      let '(x, g) := rand g in
      let r := x mod maxlen in
      let '(s, g) := int2key_fill (Z.to_nat r) 0 s g in
      Some (s, r, g)
  else Some (s, 0, g).

(** The key a caller reads back: the first [len] bytes of the buffer. *)
Definition key_of (r : option (list byte * Z * rand_state)) : option (list byte) :=
  '(s, len, _) ← r; Some (take (Z.to_nat len) s).

(** The array [unsigned char key[64]] of [fuzzTest]; its initial
    content plays no part (lemma [int2key_buffer_irrelevant]). *)
Definition buf64 : list byte := replicate 64 x00.

(** ** The fuzz test and the driver *)

(** What the program prints: one event for each [printf], with its
    arguments. *)
Inductive output :=
  | OutFuzzTest (keymode : Z)
  | OutInsertMismatch
  | OutCountMismatch (ht_numele rax_numele : Z)
  | OutInserted (ht_numele : Z)
  | OutValueMismatch (val1 val2 expected : Z)
  | OutIterMismatch (numkeys ht_numele : Z)
  | OutUsage (prog : string).

(** The index under test.  [rax.h] is not among the sources, so its
    operations are parameters: the [rax] states, [raxNew], [raxInsert]
    (the new state and the value returned), [raxFind], the [numele]
    field, and the keys that [raxNext] yields, in order, from
    [raxSeek(&iter,NULL,0,"^")] until it returns 0. *)
Class RaxOps := {
  rax : Type;
  raxNew : rax;
  raxInsert : rax → list byte → Z → rax * Z;
  raxFind : rax → list byte → Z;
  rax_numele : rax → Z;
  raxIterate : rax → list (list byte)
}.

(** The state of the process around the tests: the random stream, what
    the blocks handed out by [malloc] for hash tables hold, how many
    were handed out, and what was printed (on either stream). *)
Record world := mkWorld {
  rng : rand_state;
  heap : nat → list chain;
  mallocs : nat;
  printed : list output
}.

Definition print (o : output) (w : world) : world :=
  {| rng := rng w; heap := heap w; mallocs := mallocs w;
     printed := printed w ++ [o] |}.

Section Harness.

Context {R : RaxOps}.
Variable htNotFound : Z.

(** The insertion loop of [fuzzTest], [n] iterations left from index
    [i].  The boolean is false when the loop was left by [return 1].
    [key] is a fresh array in every iteration; only the bytes
    [int2key] stores take part in the key. *)
Fixpoint fuzzTest_insert (keymode : Z) (n : nat) (i : Z)
    (ht : hashtable) (rx : rax) (g : rand_state)
  : option (bool * hashtable * rax * rand_state) :=
  match n with
  | O => Some (true, ht, rx, g)
  | S n' =>
      '(buf, len, g) ← int2key buf64 64 (uint32 i) keymode g;
      let keylen := uint32 len in
      let key := take (Z.to_nat keylen) buf in
      let val := htHash key in
      let '(ht, retval1) := htAdd ht key val in
      let '(rx, retval2) := raxInsert rx key val in
      if bool_decide (retval1 ≠ retval2) then Some (false, ht, rx, g)
      else fuzzTest_insert keymode n' (i + 1) ht rx g
  end.

(** The iteration loop of [fuzzTest] over the keys the iterator yields:
    the number of keys seen, or the three values that differ. *)
Fixpoint fuzzTest_iterate (keys : list (list byte)) (ht : hashtable) (rx : rax)
    (numkeys : Z) : Z + Z * Z * Z :=
  match keys with
  | [] => inl numkeys
  | k :: keys =>
      let expected := htHash k in
      let val1 := htFind htNotFound ht k in
      let val2 := raxFind rx k in
      if bool_decide (val1 ≠ val2) || bool_decide (val1 ≠ expected)
      then inr (val1, val2, expected)
      else fuzzTest_iterate keys ht rx (uint64 (numkeys + 1))
  end.

(** [fuzzTest] with [n] insertions. *)
Definition fuzzTest_n (n : nat) (keymode : Z) (w : world) : option (Z * world) :=
  let ht := htNew (heap w (mallocs w)) in
  let w := {| rng := rng w; heap := heap w; mallocs := S (mallocs w);
              printed := printed w |} in
  let rx := raxNew in
  let w := print (OutFuzzTest keymode) w in
  '(ok, ht, rx, g) ← fuzzTest_insert keymode n 0 ht rx (rng w);
  let w := {| rng := g; heap := heap w; mallocs := mallocs w;
              printed := printed w |} in
  if negb ok then Some (1, print OutInsertMismatch w)
  else if bool_decide (numele ht ≠ rax_numele rx)
  then Some (1, print (OutCountMismatch (numele ht) (rax_numele rx)) w)
  else
    let w := print (OutInserted (numele ht)) w in
    match fuzzTest_iterate (raxIterate rx) ht rx 0 with
    | inr (val1, val2, expected) =>
        Some (1, print (OutValueMismatch val1 val2 expected) w)
    | inl numkeys =>
        if bool_decide (numele ht ≠ numkeys)
        then Some (1, print (OutIterMismatch numkeys (numele ht)) w)
        else Some (0, w)
    end.

Definition fuzzTest : Z → world → option (Z * world) :=
  fuzzTest_n (Z.to_nat 1000000).

(** The argument loop of [main] on [argv[1..]]: the three flags, or
    [None] when the usage message is printed and the process exits. *)
Fixpoint main_args (args : list string) (do_benchmark do_units do_fuzz : bool)
  : option (bool * bool * bool) :=
  match args with
  | [] => Some (do_benchmark, do_units, do_fuzz)
  | a :: args =>
      if bool_decide (a = "--bench"%string) then main_args args true do_units do_fuzz
      else if bool_decide (a = "--fuzz"%string) then main_args args do_benchmark do_units true
      else if bool_decide (a = "--units"%string) then main_args args do_benchmark true do_fuzz
      else None
  end.

(** [if (fuzzTest(mode)) errors++]. *)
Definition main_fuzz (keymode : Z) (st : Z * world) : option (Z * world) :=
  let '(errors, w) := st in
  '(r, w) ← fuzzTest keymode w;
  Some (if bool_decide (r ≠ 0) then errors + 1 else errors, w).

(** [main]: the exit status of the process and the final state. *)
Definition main (argv : list string) (w : world) : option (Z * world) :=
  let flags :=
    if 1 <? Z.of_nat (length argv)
    then main_args (drop 1 argv) false false false
    else Some (false, true, true) in
  match flags with
  | None => Some (1, print (OutUsage (default ""%string (argv !! 0%nat))) w)
  | Some (do_benchmark, do_units, do_fuzz) =>
      let errors := 0 in
      if do_fuzz then
        st ← main_fuzz KEY_INT (errors, w);
        st ← main_fuzz KEY_UNIQUE_ALPHA st;
        main_fuzz KEY_RANDOM st
      else Some (errors, w)
  end.

End Harness.

(** ** Definitions used to state the properties *)

(** A random stream for examples. *)
Definition rand0 : rand_state :=
  {| draws := λ n, 1103515245 + Z.of_nat n; drawn := 0 |}.

(** A block the allocator hands out a second time: slot 37143, the hash
    of "apple", still points at a node. *)
Definition recycled : list chain :=
  <[Z.to_nat 37143 := [{| keylen := 5; key := bytes "apple"; data := 10 |}]]> zeroed.

(** Two indexes for examples: one that keeps its keys in an association
    list, and one that stores nothing and reports every key as already
    present. *)
Definition alist_insert (r : list (list byte * Z)) (k : list byte) (v : Z)
  : list (list byte * Z) * Z :=
  match list_find (λ e, e.1 = k) r with
  | Some (i, _) => (<[i := (k, v)]> r, 0)
  | None => ((k, v) :: r, 1)
  end.

Definition alist_rax : RaxOps :=
  {| rax := list (list byte * Z);
     raxNew := [];
     raxInsert := alist_insert;
     raxFind := λ r k,
       match list_find (λ e, e.1 = k) r with
       | Some (_, e) => e.2
       | None => -1
       end;
     rax_numele := λ r, Z.of_nat (length r);
     raxIterate := λ r, fst <$> r |}.

Definition deaf_rax : RaxOps :=
  {| rax := unit;
     raxNew := ();
     raxInsert := λ r _ _, (r, 0);
     raxFind := λ _ _, 0;
     rax_numele := λ _, 0;
     raxIterate := λ _, [] |}.

(** A process state for examples: [malloc] hands out zero-filled
    blocks and nothing was printed. *)
Definition world0 : world :=
  {| rng := rand0; heap := λ _, zeroed; mallocs := 0; printed := [] |}.

(** The hash as the specification words it: from the seed 5381, for each
    byte in order, [hash * 33 + byte] modulo 2^32; the result is reduced
    modulo the bucket count. *)
Fixpoint djb2 (hash : Z) (s : list byte) : Z :=
  match s with
  | [] => hash
  | b :: s => djb2 ((hash * 33 + uchar b) mod 2 ^ 32) s
  end.

Definition djb2_hash (s : list byte) : Z := djb2 5381 s mod 100000.

(** The round that undoes [int2int_round], and the map it induces on
    32-bit values: used to state that [int2int] is onto. *)
Definition int2int_unround (lr : Z * Z) : Z * Z :=
  let '(l, r) := lr in
  let F := uint16 (Z.land (Z.lxor (l * 31 + Z.shiftr l 5 + 7 * 371) l) 0xffff) in
  (uint16 (Z.lxor r F), uint16 l).

Definition int2int_inv (output : Z) : Z :=
  let l := uint16 (Z.land output 0xffff) in
  let r := uint16 (Z.shiftr output 16) in
  let '(l, r) := Nat.iter 8 int2int_unround (l, r) in
  uint32 (Z.lor (Z.shiftl r 16) l).

(** The keys of the indices [0 .. n-1] in mode [KEY_INT], generated as
    [fuzzTest] does. *)
Definition int_keys (n : nat) : list (option (list byte)) :=
  (λ i : nat, key_of (int2key buf64 64 (Z.of_nat i) KEY_INT rand0)) <$> seq 0 n.

(** The value of a digit string, least significant digit first, for a
    digit valuation [val]. *)
Definition undigits (base : Z) (val : byte → Z) (ds : list byte) : Z :=
  foldr (λ b acc, val b + base * acc) 0 ds.

(** The position of a character in [set]. *)
Definition set_index (b : byte) : Z :=
  match list_find (λ c, c = b) set with
  | Some (i, _) => Z.of_nat i
  | None => 0
  end.

(** The value of a decimal digit character. *)
Definition digit_value (b : byte) : Z := uchar b - 48.

(** How many of the values returned by [fuzzTest] report a failure. *)
Definition failures (rs : list Z) : Z :=
  Z.of_nat (length (filter (λ r, r ≠ 0) rs)).

(** The events that report a failed check. *)
Definition is_failure (o : output) : Prop :=
  match o with
  | OutInsertMismatch | OutCountMismatch _ _
  | OutValueMismatch _ _ _ | OutIterMismatch _ _ => True
  | _ => False
  end.

(** What one run prints after its banner, by the value [r] it returns:
    a passed run prints the element count; a failed run prints one
    failure report, before the element count (the first two checks) or
    after it (the last two), and nothing more. *)
Definition run_report (r : Z) (out : list output) : Prop :=
  (r = 0 ∧ ∃ n, out = [OutInserted n])
  ∨ (r = 1 ∧ ∃ f, is_failure f ∧ (out = [f] ∨ ∃ n, out = [OutInserted n; f])).

(** The range of a [uint16_t], and pairs of halves. *)
Definition half (x : Z) : Prop := 0 ≤ x < 2 ^ 16.
Definition halves (lr : Z * Z) : Prop := half lr.1 ∧ half lr.2.

(** The first and the last line of [int2int]: a 32-bit value split
    into its halves [(l, r)], and the halves joined. *)
Definition split32 (x : Z) : Z * Z :=
  (uint16 (Z.land x 0xffff), uint16 (Z.shiftr x 16)).
Definition join32 (lr : Z * Z) : Z :=
  uint32 (Z.lor (Z.shiftl lr.2 16) lr.1).

(** The bytes the [KEY_RANDOM] loop stores, and the stream after it. *)
Fixpoint random_bytes (n : nat) (g : rand_state) : list byte * rand_state :=
  match n with
  | O => ([], g)
  | S n' =>
      let '(x, g) := rand g in
      let '(bs, g) := random_bytes n' g in
      (to_uchar (Z.land x 0xff) :: bs, g)
  end.

(** What a caller of [int2key] observes: the key, the length and the
    random stream. *)
Definition observed (r : option (list byte * Z * rand_state))
  : option (list byte * Z * rand_state) :=
  '(s, len, g) ← r; Some (take (Z.to_nat len) s, len, g).

(** The calls that change a table, and a table after a sequence of
    them. *)
Inductive ht_op :=
  | OpAdd (s : list byte) (d : Z)
  | OpRem (s : list byte).

Definition ht_step (t : hashtable) (o : ht_op) : hashtable :=
  match o with
  | OpAdd s d => (htAdd t s d).1
  | OpRem s => (htRem t s).1
  end.

Definition ht_run (ops : list ht_op) (t : hashtable) : hashtable :=
  foldl ht_step t ops.

(** ** The oracle as a finite map *)

#[global] Instance byte_countable : Countable byte :=
  inj_countable Byte.to_N Byte.of_N Byte.of_to_N.

(** The map from keys to values that the entries of a table stand
    for. *)
Definition ht_map (t : hashtable) : gmap (list byte) Z :=
  list_to_map ((λ n, (key n, data n)) <$> entries t).

(** The calls on a finite map. *)
Definition map_step (m : gmap (list byte) Z) (o : ht_op) : gmap (list byte) Z :=
  match o with
  | OpAdd s d => <[s := d]> m
  | OpRem s => delete s m
  end.

(** The table holding the single key "apple", for examples. *)
Definition apple_table : hashtable := (htAdd (htNew zeroed) (bytes "apple") 10).1.

(** A sequence of insertions. *)
Definition adds (kvs : list (list byte * Z)) : list ht_op :=
  (λ kv, OpAdd kv.1 kv.2) <$> kvs.

(** The arguments [main] accepts. *)
Definition recognised (a : string) : Prop :=
  a = "--bench"%string ∨ a = "--fuzz"%string ∨ a = "--units"%string.

(** ** The fuzz test against the map *)

(** The keys the insertion loop of [fuzzTest] generates in [n]
    iterations from index [i]. *)
Fixpoint gen_keys (keymode : Z) (n : nat) (i : Z) (g : rand_state)
  : list (list byte) :=
  match n with
  | O => []
  | S n' =>
      match int2key buf64 64 (uint32 i) keymode g with
      | Some (buf, len, g) =>
          take (Z.to_nat (uint32 len)) buf :: gen_keys keymode n' (i + 1) g
      | None => []
      end
  end.

(** The map after the insertions of [fuzzTest]: each key bound to its
    hash. *)
Definition insert_keys (m : gmap (list byte) Z) (ks : list (list byte))
  : gmap (list byte) Z :=
  foldl (λ m k, <[k := htHash k]> m) m ks.

(** The state of the oracle during the insertion loop: a table state
    with distinct keys whose counter is the number of entries. *)
Definition oracle_ok (t : hashtable) : Prop :=
  wf_table t ∧ no_dup_keys t ∧ numele t = Z.of_nat (length (entries t)).

(** An index that behaves as a finite map: its states stand for maps,
    in a way that [raxNew] is the empty map, [raxInsert] inserts and
    returns 1 exactly for a key that was not bound, [raxFind] returns
    the value of a bound key, [numele] is the number of keys and the
    iterator yields every key once. *)
Class RaxLaws (R : RaxOps) := {
  rax_ok : rax → Prop;
  rax_abs : rax → gmap (list byte) Z;
  rax_ok_new : rax_ok raxNew;
  rax_abs_new : rax_abs raxNew = ∅;
  rax_ok_insert r k v : rax_ok r → rax_ok (raxInsert r k v).1;
  rax_abs_insert r k v :
    rax_ok r → rax_abs (raxInsert r k v).1 = <[k := v]> (rax_abs r);
  rax_insert_new r k v :
    rax_ok r →
    (raxInsert r k v).2 = if rax_abs r !! k is Some _ then 0 else 1;
  rax_find r k v : rax_ok r → rax_abs r !! k = Some v → raxFind r k = v;
  rax_count r : rax_ok r → rax_numele r = Z.of_nat (size (rax_abs r));
  rax_iterate r : rax_ok r → raxIterate r ≡ₚ (map_to_list (rax_abs r)).*1
}.

(** The index that is a finite map. *)
Definition map_rax : RaxOps :=
  {| rax := gmap (list byte) Z;
     raxNew := ∅;
     raxInsert := λ r k v, (<[k := v]> r, if r !! k is Some _ then 0 else 1);
     raxFind := λ r k, default (-1) (r !! k);
     rax_numele := λ r, Z.of_nat (size r);
     raxIterate := λ r, (map_to_list r).*1 |}.

#[global] Program Instance map_rax_laws : RaxLaws map_rax :=
  {| rax_ok := λ _, True; rax_abs := λ r, r |}.
Next Obligation. done. Qed.
Next Obligation. done. Qed.
Next Obligation. done. Qed.
Next Obligation. done. Qed.
Next Obligation. done. Qed.
Next Obligation. intros r k v _ H. cbn. by rewrite H. Qed.
Next Obligation. done. Qed.
Next Obligation. done. Qed.

(** A process state whose next hash-table block is zero-filled. *)
Definition fresh_block (w : world) : Prop := heap w (mallocs w) = zeroed.


(** ** The functions on concrete inputs *)

Example htHash_apple : htHash (bytes "apple") = 37143.
Proof. reflexivity. Qed.

Example int2int_values :
  int2int 0 = 2400273484 ∧ int2int 1 = 1211706823
  ∧ int2int 65536 = 3751277721 ∧ int2int 4294967295 = 1385051085.
Proof. repeat split. Qed.

Example int2key_alpha_0 :
  key_of (int2key buf64 64 0 KEY_UNIQUE_ALPHA rand0) = Some (bytes "cwSbmC").
Proof. reflexivity. Qed.

Example int2key_alpha_truncated :
  key_of (int2key buf64 3 0 KEY_UNIQUE_ALPHA rand0) = Some (bytes "cw").
Proof. reflexivity. Qed.

Example int2key_int_12345 :
  key_of (int2key buf64 64 12345 KEY_INT rand0) = Some (bytes "12345").
Proof. reflexivity. Qed.

Example int2key_random_length :
  (λ r, r.1.2) <$> int2key buf64 64 0 KEY_RANDOM rand0 = Some 45.
Proof. reflexivity. Qed.

(** Scenario A of the specification on the oracle: three keys, three
    entries, each found with its value. *)
Example htAdd_three_keys :
  let t1 := (htAdd (htNew zeroed) (bytes "apple") 1).1 in
  let t2 := (htAdd t1 (bytes "applesauce") 2).1 in
  let t3 := (htAdd t2 (bytes "app") 3).1 in
  numele t3 = 3 ∧ length (entries t3) = 3%nat
  ∧ htFind 0 t3 (bytes "app") = 3 ∧ htFind 0 t3 (bytes "apple") = 1
  ∧ htFind 0 t3 (bytes "applesauce") = 2 ∧ htFind 0 t3 (bytes "ap") = 0.
Proof. vm_compute. repeat split. Qed.

(** A run of five insertions against the association list passes in
    each mode. *)
Example fuzzTest_5_passes :
  (λ r, (r.1, printed r.2)) <$> @fuzzTest_n alist_rax 0 5 KEY_INT world0
    = Some (0, [OutFuzzTest 0; OutInserted 5])
  ∧ (λ r, (r.1, printed r.2)) <$> @fuzzTest_n alist_rax 0 5 KEY_UNIQUE_ALPHA world0
    = Some (0, [OutFuzzTest 1; OutInserted 5])
  ∧ (λ r, r.1) <$> @fuzzTest_n alist_rax 0 5 KEY_RANDOM world0 = Some 0.
Proof. vm_compute. repeat split. Qed.

(** Against the index that reports every key as present, each of the
    three runs of [main] stops at its first insertion; all three run
    and the exit status is 3. *)
Example main_deaf_rax :
  (λ r, (r.1, printed r.2)) <$> @main deaf_rax 0 ["rax-test"%string] world0
  = Some (3, [OutFuzzTest 0; OutInsertMismatch;
              OutFuzzTest 1; OutInsertMismatch;
              OutFuzzTest 2; OutInsertMismatch]).
Proof. vm_compute. reflexivity. Qed.

(** ** Facts about the hash and the chain scan *)

Lemma HT_TABLE_SIZE_pos : 0 < HT_TABLE_SIZE.
Proof. reflexivity. Qed.

Lemma HT_TABLE_SIZE_eq : HT_TABLE_SIZE = 100000.
Proof. reflexivity. Qed.

(** The bucket count is never unfolded by simplification; the proofs
    below use the two facts above. *)
#[global] Opaque HT_TABLE_SIZE.

Lemma htHash_range s : 0 ≤ htHash s < HT_TABLE_SIZE.
Proof. apply Z.mod_pos_bound, HT_TABLE_SIZE_pos. Qed.

Lemma htHash_lt_length t s :
  length (table t) = Z.to_nat HT_TABLE_SIZE →
  (Z.to_nat (htHash s) < length (table t))%nat.
Proof. intros ->. pose proof (htHash_range s). lia. Qed.

Lemma node_matches_true n s :
  node_matches n s = true ↔
  keylen n = Z.of_nat (length s) ∧ take (length s) (key n) = s.
Proof.
  unfold node_matches.
  rewrite andb_true_iff, !bool_decide_eq_true. reflexivity.
Qed.

Lemma node_matches_key h n s :
  wf_node h n → node_matches n s = true ↔ node_key n = (Z.of_nat (length s), s).
Proof.
  intros [Hlen _]. rewrite node_matches_true. unfold node_key. split.
  - intros [Hk Ht]. rewrite Hk. f_equal.
    rewrite take_ge in Ht by lia. done.
  - intros [= Hk Hs]. split; [done|].
    rewrite Hs. apply take_ge. lia.
Qed.

Lemma node_key_matches n s :
  node_key n = (Z.of_nat (length s), s) → node_matches n s = true.
Proof.
  intros [= Hk Hs]. apply node_matches_true. split; [done|].
  rewrite Hs. by apply take_ge.
Qed.

(** The scan stops at the first matching node and reports its link. *)
Lemma htRawLookup_loop_Some c p s n q :
  htRawLookup_loop c p s = (Some n, q) →
  ∃ i, q = (p + i)%nat ∧ c !! i = Some n ∧ node_matches n s = true ∧
       ∀ j m, (j < i)%nat → c !! j = Some m → node_matches m s = false.
Proof.
  revert p. induction c as [|m c IH]; intros p; simpl; [done|].
  destruct (node_matches m s) eqn:Hm.
  - intros [= <- <-]. exists 0%nat. repeat split; [lia|done|lia].
  - intros (i & -> & Hi & Hn & Hlt)%IH.
    exists (S i). repeat split; [lia|done|done|].
    intros [|j] m' Hj; simpl; [by intros [= <-]|].
    apply Hlt. lia.
Qed.

Lemma htRawLookup_loop_None c p s q :
  htRawLookup_loop c p s = (None, q) →
  q = (p + length c)%nat ∧ ∀ m, m ∈ c → node_matches m s = false.
Proof.
  revert p. induction c as [|m c IH]; intros p; simpl.
  - intros [= <-]. split; [lia|]. by intros m ?%elem_of_nil.
  - destruct (node_matches m s) eqn:Hm; [done|].
    intros [-> Hall]%IH. split; [lia|].
    by intros m' [->|?]%elem_of_cons; [|apply Hall].
Qed.

Lemma htRawLookup_loop_find c p s :
  (∃ n, n ∈ c ∧ node_matches n s = true) →
  ∃ n q, htRawLookup_loop c p s = (Some n, q).
Proof.
  intros (n & Hin & Hn). destruct (htRawLookup_loop c p s) as [[m|] q] eqn:E.
  - eauto.
  - apply htRawLookup_loop_None in E as [_ Hall].
    rewrite (Hall _ Hin) in Hn. done.
Qed.

(** ** Facts about the bucket array *)

Lemma bucket_lookup t h :
  (Z.to_nat h < length (table t))%nat →
  table t !! Z.to_nat h = Some (bucket t h).
Proof. apply list_lookup_lookup_total_lt. Qed.

Lemma concat_split {A} (l : list (list A)) i c :
  l !! i = Some c →
  concat l = concat (take i l) ++ c ++ concat (drop (S i) l).
Proof.
  intros H. rewrite <- (take_drop_middle l i c H) at 1.
  by rewrite concat_app, concat_cons.
Qed.

Lemma concat_insert {A} (l : list (list A)) i c :
  (i < length l)%nat →
  concat (<[i:=c]> l) = concat (take i l) ++ c ++ concat (drop (S i) l).
Proof.
  intros H. rewrite insert_take_drop by done.
  by rewrite concat_app, concat_cons.
Qed.

Lemma elem_of_concat {A} (l : list (list A)) x :
  x ∈ concat l ↔ ∃ i c, l !! i = Some c ∧ x ∈ c.
Proof.
  rewrite list_elem_of_In, in_concat. split.
  - intros (c & [i Hi]%list_elem_of_In%list_elem_of_lookup & Hx%list_elem_of_In).
    eauto.
  - intros (i & c & Hi & Hx). exists c. split; apply list_elem_of_In; [|done].
    by eapply list_elem_of_lookup_2.
Qed.

Lemma wf_table_zeroed : wf_table (htNew zeroed).
Proof.
  split; [|split]; cbn [htNew table numele].
  - lia.
  - apply length_replicate.
  - intros h c n [-> _]%lookup_replicate []%elem_of_nil.
Qed.

(** Replacing one bucket by a chain of well-formed nodes keeps the
    table well formed. *)
Lemma wf_table_insert t h c ne :
  wf_table t →
  0 ≤ ne < 2 ^ 64 →
  (∀ n, n ∈ c → wf_node h n) →
  wf_table {| numele := ne; table := <[h:=c]> (table t) |}.
Proof.
  intros (Hne & Hlen & Hwf) Hr Hc. split; [|split]; cbn [table numele].
  - done.
  - by rewrite length_insert.
  - intros h' c' n [[-> [-> _]]|[_ Hl]]%list_lookup_insert_Some Hn; eauto.
Qed.

Lemma wf_bucket t s n :
  wf_table t → n ∈ bucket t (htHash s) → wf_node (Z.to_nat (htHash s)) n.
Proof.
  intros (_ & Hlen & Hwf) Hn. eapply Hwf; [|done].
  by apply bucket_lookup, htHash_lt_length.
Qed.

(** With every node in the bucket of its hash, an entry with the key
    [s] is in the table exactly when the scan of bucket [htHash s] finds
    one. *)
Lemma has_key_lookup t s :
  wf_table t →
  has_key t s ↔ ∃ n h p, htRawLookup t s = (Some n, h, p).
Proof.
  intros Hwf. unfold has_key, entries, htRawLookup. split.
  - intros (n & (i & c & Hi & Hn)%elem_of_concat & Hk).
    destruct Hwf as (_ & Hlen & Hwf).
    destruct (Hwf _ _ _ Hi Hn) as [_ Hh].
    pose proof Hk as [= _ Hs]. rewrite Hs in Hh.
    destruct (htRawLookup_loop_find (bucket t (htHash s)) 0 s) as (m & q & ->).
    + exists n. split; [|by apply node_key_matches].
      unfold bucket. rewrite Hh, Nat2Z.id.
      by rewrite (list_lookup_total_correct _ _ _ Hi).
    + eauto.
  - intros (n & h & p & E).
    destruct (htRawLookup_loop _ _ _) as [[m|] q] eqn:El; [|done].
    injection E as -> _ _.
    apply htRawLookup_loop_Some in El as (i & _ & Hi & Hm & _).
    apply list_elem_of_lookup_2 in Hi.
    exists n. split.
    + apply elem_of_concat. exists (Z.to_nat (htHash s)), (bucket t (htHash s)).
      split; [|done]. apply bucket_lookup, htHash_lt_length, Hwf.
    + eapply node_matches_key; [|done]. by eapply wf_bucket.
Qed.

(** ** Insertion *)

Lemma htRawLookup_hash t s n h p : htRawLookup t s = (n, h, p) → h = htHash s.
Proof.
  unfold htRawLookup. destruct (htRawLookup_loop _ _ _). by intros [= _ <- _].
Qed.

Lemma node_matches_set_data n d s :
  node_matches (set_data n d) s = node_matches n s.
Proof. done. Qed.

(** Storing to [n->data] does not move the node: the scan finds it at
    the same link, with the new value. *)
Lemma htRawLookup_loop_set_data c p s n i d :
  htRawLookup_loop c p s = (Some n, (p + i)%nat) →
  htRawLookup_loop (<[i := set_data n d]> c) p s
  = (Some (set_data n d), (p + i)%nat).
Proof.
  revert p i. induction c as [|m c IH]; intros p i; cbn [htRawLookup_loop]; [done|].
  destruct (node_matches m s) eqn:Hm.
  - intros [= -> Hi]. assert (i = 0%nat) as -> by lia. cbn.
    rewrite node_matches_set_data, Hm. by rewrite Nat.add_0_r.
  - intros E. pose proof E as (j & Hj & _)%htRawLookup_loop_Some.
    destruct i as [|i]; [lia|]. cbn. rewrite Hm.
    replace (p + S i)%nat with (S p + i)%nat in * by lia. by apply IH.
Qed.

Lemma htAdd_length t s d :
  length (table (htAdd t s d).1) = length (table t).
Proof.
  unfold htAdd. destruct (htRawLookup t s) as [[[n|] h] p]; cbn;
    apply length_insert.
Qed.

(** After [htAdd t s d] the scan for [s] ends on a node holding [d]. *)
Lemma htRawLookup_htAdd t s d :
  length (table t) = Z.to_nat HT_TABLE_SIZE →
  ∃ n p, htRawLookup (htAdd t s d).1 s = (Some n, htHash s, p) ∧ data n = d.
Proof.
  intros Hlen. pose proof (htHash_lt_length t s Hlen) as Hh.
  unfold htAdd, htRawLookup.
  destruct (htRawLookup_loop (bucket t (htHash s)) 0 s) as [[n|] p] eqn:E;
    cbn [fst]; unfold bucket at 1; cbn [table];
    rewrite list_lookup_total_insert_eq by done.
  - apply (htRawLookup_loop_set_data _ 0%nat _ _ p d) in E.
    rewrite E. eauto.
  - cbn [htRawLookup_loop].
    rewrite (node_key_matches _ s) by done. eauto.
Qed.

Lemma htFind_htAdd nf t s d :
  length (table t) = Z.to_nat HT_TABLE_SIZE →
  htFind nf (htAdd t s d).1 s = d.
Proof.
  intros Hlen. unfold htFind.
  by destruct (htRawLookup_htAdd t s d Hlen) as (n & p & -> & ->).
Qed.

Lemma wf_node_set_data h n d : wf_node h n → wf_node h (set_data n d).
Proof. done. Qed.

Lemma wf_table_htAdd t s d : wf_table t → wf_table (htAdd t s d).1.
Proof.
  intros Hwf. pose proof (htHash_range s) as Hr.
  unfold htAdd, htRawLookup.
  destruct (htRawLookup_loop (bucket t (htHash s)) 0 s) as [[n|] p] eqn:E;
    cbn [fst]; apply wf_table_insert; try done.
  - apply Hwf.
  - intros m [j [[_ [<- _]]|[_ Hl]]%list_lookup_insert_Some]%list_elem_of_lookup.
    + apply wf_node_set_data. apply htRawLookup_loop_Some in E as (i&_&Hi&_).
      eapply wf_bucket; [done|]. by eapply list_elem_of_lookup_2.
    + eapply wf_bucket; [done|]. by eapply list_elem_of_lookup_2.
  - apply Z.mod_pos_bound. done.
  - intros m [->|Hm]%elem_of_cons.
    + split; cbn; [done|lia].
    + by eapply wf_bucket.
Qed.

Lemma concat_replicate_nil {A} n : concat (replicate n (@nil A)) = [].
Proof. induction n; cbn; done. Qed.

Lemma entries_zeroed : entries (htNew zeroed) = [].
Proof. apply concat_replicate_nil. Qed.

Lemma has_key_zeroed s : ¬ has_key (htNew zeroed) s.
Proof. intros (n & Hn & _). rewrite entries_zeroed in Hn. by apply elem_of_nil in Hn. Qed.

(** What a successful scan says about the node it returns. *)
Lemma htRawLookup_Some t s n h p :
  wf_table t →
  htRawLookup t s = (Some n, h, p) →
  h = htHash s ∧ bucket t h !! p = Some n ∧
  node_key n = (Z.of_nat (length s), s).
Proof.
  intros Hwf E. pose proof (htRawLookup_hash _ _ _ _ _ E) as ->.
  unfold htRawLookup in E.
  destruct (htRawLookup_loop _ _ _) as [m q] eqn:El. injection E as -> ->.
  apply htRawLookup_loop_Some in El as (i & -> & Hi & Hn & _).
  repeat split; [done|].
  eapply node_matches_key; [|done].
  eapply wf_bucket; [done|]. by eapply list_elem_of_lookup_2.
Qed.

(** C3. [htAdd] on a table state: when an entry with the same length
    and bytes is present, its value is overwritten where it stands, the
    call returns 0 and [numele] is unchanged; otherwise a node holding
    the key bytes is linked at the head of the bucket chain of the key's
    hash, [numele] is incremented (as a [uint64_t]: by one unless it was
    at 2^64-1) and the call returns 1.  So on an empty table two
    insertions of one key with the values 10 and 20 return 1 then 0, a
    final [htFind] returns 20 and [numele] is 1. *)
Theorem htAdd_spec (htNotFound : Z) (t : hashtable) (s : list byte) (d : Z) :
  wf_table t →
  let h := htHash s in
  let new := {| keylen := Z.of_nat (length s); key := s; data := d |} in
  (has_key t s →
     ∃ p n, bucket t h !! p = Some n ∧
       node_key n = (Z.of_nat (length s), s) ∧
       htAdd t s d =
         ({| numele := numele t;
             table := <[Z.to_nat h := <[p := set_data n d]> (bucket t h)]>
                        (table t) |}, 0))
  ∧ (¬ has_key t s →
       htAdd t s d =
         ({| numele := uint64 (numele t + 1);
             table := <[Z.to_nat h := new :: bucket t h]> (table t) |}, 1)
       ∧ (numele t < 2 ^ 64 - 1 → numele (htAdd t s d).1 = numele t + 1))
  ∧ htFind htNotFound (htAdd t s d).1 s = d
  ∧ (let a := htAdd (htNew zeroed) s 10 in
     let b := htAdd a.1 s 20 in
     a.2 = 1 ∧ b.2 = 0 ∧ htFind htNotFound b.1 s = 20 ∧ numele b.1 = 1).
Proof.
  intros Hwf h new.
  assert (Hnew : ∀ t0, wf_table t0 → ¬ has_key t0 s →
    htAdd t0 s d =
      ({| numele := uint64 (numele t0 + 1);
          table := <[Z.to_nat h := new :: bucket t0 h]> (table t0) |}, 1)).
  { intros t0 Hwf0 Hno. unfold htAdd.
    destruct (htRawLookup t0 s) as [[[n|] h'] p] eqn:E.
    - destruct Hno. apply has_key_lookup; eauto.
    - by apply htRawLookup_hash in E as ->. }
  assert (Hold : ∀ t0 d0, wf_table t0 → has_key t0 s →
    ∃ p n, bucket t0 h !! p = Some n ∧
      node_key n = (Z.of_nat (length s), s) ∧
      htAdd t0 s d0 =
        ({| numele := numele t0;
            table := <[Z.to_nat h := <[p := set_data n d0]> (bucket t0 h)]>
                       (table t0) |}, 0)).
  { intros t0 d0 Hwf0 (n & h' & p & E)%has_key_lookup; [|done].
    destruct (htRawLookup_Some _ _ _ _ _ Hwf0 E) as (-> & Hp & Hk).
    exists p, n. repeat split; [done..|].
    unfold htAdd. by rewrite E. }
  split; [by apply Hold|]. split; [|split].
  - intros Hno. split; [by apply Hnew|].
    intros Hlt. rewrite Hnew by done. cbn [fst numele]. unfold uint64.
    destruct Hwf as (Hr & _). apply Z.mod_small. lia.
  - apply htFind_htAdd, Hwf.
  - cbn zeta.
    set (a := htAdd (htNew zeroed) s 10).
    assert (Ha : wf_table a.1) by apply wf_table_htAdd, wf_table_zeroed.
    assert (Hk : has_key a.1 s).
    { apply has_key_lookup; [done|].
      destruct (htRawLookup_htAdd (htNew zeroed) s 10) as (n & p & E & _).
      - apply wf_table_zeroed.
      - eauto. }
    assert (Ea : a.2 = 1 ∧ numele a.1 = 1).
    { unfold a. clear. assert (Hno := has_key_zeroed s).
      unfold htAdd.
      destruct (htRawLookup (htNew zeroed) s) as [[[n|] h'] p] eqn:E.
      - destruct Hno. apply has_key_lookup; [apply wf_table_zeroed|eauto].
      - done. }
    destruct (Hold a.1 20 Ha Hk) as (p & n & _ & _ & Eb).
    split; [apply Ea|]. split; [by rewrite Eb|].
    split; [apply htFind_htAdd, Ha|].
    rewrite Eb. apply Ea.
Qed.

Lemma htAdd_spec_witness :
  wf_table (htAdd (htNew zeroed) (bytes "apple") 10).1
  ∧ htFind 0 (htAdd (htAdd (htNew zeroed) (bytes "apple") 10).1
                (bytes "apple") 20).1 (bytes "apple") = 20.
Proof.
  split; [apply wf_table_htAdd, wf_table_zeroed|].
  exact (proj1 (proj2 (proj2
    (htAdd_spec 0 _ (bytes "apple") 20
       (wf_table_htAdd _ (bytes "apple") 10 wf_table_zeroed))))).
Defined.

(** ** Removal *)

Lemma htRem_Some t s n h p :
  htRawLookup t s = (Some n, h, p) →
  htRem t s =
    ({| numele := numele t;
        table := <[Z.to_nat h := delete p (bucket t h)]> (table t) |}, 1).
Proof. intros E. unfold htRem. by rewrite E. Qed.

Lemma htRem_None t s h p :
  htRawLookup t s = (None, h, p) → htRem t s = (t, 0).
Proof. intros E. unfold htRem. by rewrite E. Qed.

(** [htRem] never stores to [numele]. *)
Lemma htRem_numele t s : numele (htRem t s).1 = numele t.
Proof. unfold htRem. by destruct (htRawLookup t s) as [[[n|] h] p]. Qed.

Lemma wf_table_htRem t s : wf_table t → wf_table (htRem t s).1.
Proof.
  intros Hwf. unfold htRem.
  destruct (htRawLookup t s) as [[[n|] h] p] eqn:E; [|done].
  apply htRawLookup_hash in E as ->. cbn [fst].
  apply wf_table_insert; [done|apply Hwf|].
  intros m Hm%list_elem_of_delete_inv.
  pose proof (wf_bucket t s m Hwf Hm) as Hn. done.
Qed.

(** ** The entries of a table after an operation *)

Lemma entries_insert t h c ne :
  (h < length (table t))%nat →
  entries {| numele := ne; table := <[h:=c]> (table t) |}
  = concat (take h (table t)) ++ c ++ concat (drop (S h) (table t)).
Proof. apply concat_insert. Qed.

Lemma entries_split t h :
  (Z.to_nat h < length (table t))%nat →
  entries t = concat (take (Z.to_nat h) (table t)) ++ bucket t h
              ++ concat (drop (S (Z.to_nat h)) (table t)).
Proof. intros Hh. by apply concat_split, bucket_lookup. Qed.

Lemma fmap_set_data (c : chain) p n d :
  c !! p = Some n → node_key <$> <[p := set_data n d]> c = node_key <$> c.
Proof.
  intros Hp. rewrite list_fmap_insert. apply list_insert_id.
  by rewrite list_lookup_fmap, Hp.
Qed.

Lemma no_dup_keys_htAdd t s d :
  wf_table t → no_dup_keys t → no_dup_keys (htAdd t s d).1.
Proof.
  intros Hwf Hnd. pose proof Hwf as (_ & Hlen & _).
  pose proof (htHash_lt_length t s Hlen) as Hh.
  unfold no_dup_keys in *. rewrite (entries_split t (htHash s)) in Hnd by done.
  unfold htAdd. destruct (htRawLookup t s) as [[[n|] h] p] eqn:E.
  - destruct (htRawLookup_Some _ _ _ _ _ Hwf E) as (-> & Hp & _). cbn [fst].
    rewrite entries_insert by done.
    rewrite !fmap_app in *. by rewrite fmap_set_data.
  - assert (Hno : ¬ has_key t s).
    { intros (n & h' & p' & E')%has_key_lookup; [congruence|done]. }
    apply htRawLookup_hash in E as ->. cbn [fst].
    rewrite entries_insert by done.
    rewrite <- app_comm_cons, fmap_app, fmap_cons, <- Permutation_middle.
    rewrite <- fmap_app, <- entries_split by done.
    rewrite <- entries_split in Hnd by done.
    apply NoDup_cons. split; [|done].
    intros (m & Hk & Hm)%list_elem_of_fmap. apply Hno. by exists m.
Qed.

Lemma no_dup_keys_htRem t s :
  length (table t) = Z.to_nat HT_TABLE_SIZE →
  no_dup_keys t → no_dup_keys (htRem t s).1.
Proof.
  intros Hlen Hnd. pose proof (htHash_lt_length t s Hlen) as Hh.
  unfold htRem. destruct (htRawLookup t s) as [[[n|] h] p] eqn:E; [|done].
  apply htRawLookup_hash in E as ->. cbn [fst].
  unfold no_dup_keys in *. rewrite (entries_split t (htHash s)) in Hnd by done.
  rewrite entries_insert by done.
  eapply sublist_NoDup; [exact Hnd|].
  apply fmap_sublist, sublist_app; [done|].
  apply sublist_app; [|done]. apply sublist_delete.
Qed.

Lemma no_dup_keys_zeroed : no_dup_keys (htNew zeroed).
Proof. unfold no_dup_keys. rewrite entries_zeroed. constructor. Qed.

(** The parts of [htRem] as they are: without the key the table is
    returned as it is; with the key one entry leaves the chains and the
    call returns 1, and [numele] keeps its value in both cases. *)
Lemma htRem_unlinks t s :
  wf_table t →
  (¬ has_key t s → htRem t s = (t, 0))
  ∧ (has_key t s →
       (htRem t s).2 = 1
       ∧ S (length (entries (htRem t s).1)) = length (entries t)
       ∧ numele (htRem t s).1 = numele t).
Proof.
  intros Hwf. pose proof Hwf as (_ & Hlen & _).
  pose proof (htHash_lt_length t s Hlen) as Hh. split.
  - intros Hno. destruct (htRawLookup t s) as [[[n|] h] p] eqn:E.
    + destruct Hno. apply has_key_lookup; eauto.
    + by eapply htRem_None.
  - intros (n & h & p & E)%has_key_lookup; [|done].
    destruct (htRawLookup_Some _ _ _ _ _ Hwf E) as (-> & Hp & _).
    rewrite (htRem_Some _ _ _ _ _ E). cbn [fst snd numele].
    split; [done|]. split; [|done].
    rewrite entries_insert, (entries_split t (htHash s)) by done.
    rewrite !length_app, length_delete by done.
    apply lookup_lt_Some in Hp. lia.
Qed.

(** Table states with pairwise distinct keys are closed under any
    sequence of calls. *)
Lemma ht_run_invariant ops t :
  wf_table t → no_dup_keys t →
  wf_table (ht_run ops t) ∧ no_dup_keys (ht_run ops t).
Proof.
  revert t. induction ops as [|o ops IH]; intros t Hwf Hnd; [done|].
  cbn [ht_run foldl]. apply IH; destruct o as [s d|s]; cbn [ht_step].
  - by apply wf_table_htAdd.
  - by apply wf_table_htRem.
  - by apply no_dup_keys_htAdd.
  - apply no_dup_keys_htRem; [apply Hwf|done].
Qed.

(** C5. On table states (every node chained in the bucket of its key's
    hash, [keylen] the size of the key), "no two reachable entries have
    the same key length and bytes" is an invariant: [htAdd] and [htRem]
    take a table state with pairwise distinct keys to a table state
    with pairwise distinct keys, and so every table obtained from a
    table of null buckets by a sequence of [htAdd] and [htRem] has
    pairwise distinct keys. *)
Theorem no_dup_keys_invariant (t : hashtable) (s : list byte) (d : Z) :
  wf_table t → no_dup_keys t →
  (wf_table (htAdd t s d).1 ∧ no_dup_keys (htAdd t s d).1)
  ∧ (wf_table (htRem t s).1 ∧ no_dup_keys (htRem t s).1)
  ∧ (∀ ops, no_dup_keys (ht_run ops t))
  ∧ (∀ ops, no_dup_keys (ht_run ops (htNew zeroed))).
Proof.
  intros Hwf Hnd. split; [split|split; [split|split]].
  - by apply wf_table_htAdd.
  - by apply no_dup_keys_htAdd.
  - by apply wf_table_htRem.
  - apply no_dup_keys_htRem; [apply Hwf|done].
  - intros ops. by apply ht_run_invariant.
  - intros ops. apply ht_run_invariant;
      [apply wf_table_zeroed|apply no_dup_keys_zeroed].
Qed.

Lemma no_dup_keys_invariant_witness :
  wf_table (htNew zeroed) ∧ no_dup_keys (htNew zeroed)
  ∧ no_dup_keys (htAdd (htNew zeroed) (bytes "apple") 10).1
  ∧ no_dup_keys (htRem (htNew zeroed) (bytes "apple")).1.
Proof.
  split; [apply wf_table_zeroed|]. split; [apply no_dup_keys_zeroed|].
  pose proof (no_dup_keys_invariant (htNew zeroed) (bytes "apple") 10
                wf_table_zeroed no_dup_keys_zeroed) as H.
  split; [exact (proj2 (proj1 H))|exact (proj2 (proj1 (proj2 H)))].
Defined.

(** ** Creation *)

(** On a block of null buckets [htNew] gives the empty table. *)
Lemma htNew_zeroed htNotFound s :
  numele (htNew zeroed) = 0
  ∧ (∀ h c, table (htNew zeroed) !! h = Some c → c = [])
  ∧ htFind htNotFound (htNew zeroed) s = htNotFound.
Proof.
  split; [done|]. split.
  - by intros h c [-> _]%lookup_replicate.
  - unfold htFind, htRawLookup.
    destruct (htRawLookup_loop _ _ _) as [[n|] p] eqn:E; [|done].
    apply htRawLookup_loop_Some in E as (i & _ & Hi & _).
    destruct wf_table_zeroed as (_ & Hlen & _).
    pose proof (bucket_lookup _ _ (htHash_lt_length _ s Hlen)) as Hb.
    apply lookup_replicate in Hb as [Hb _].
    rewrite Hb, lookup_nil in Hi. discriminate Hi.
Qed.

(** C2, at a block that is not zero-filled: [htNew] stores 0 to
    [numele] and leaves the buckets as they are, so slot 37143 is not
    an empty chain and [htFind] of "apple" returns 10, whatever the
    sentinel is. *)
Theorem htNew_recycled_block :
  (∀ mem, table (htNew mem) = mem)
  ∧ length recycled = Z.to_nat HT_TABLE_SIZE
  ∧ numele (htNew recycled) = 0
  ∧ bucket (htNew recycled) 37143
    = [{| keylen := 5; key := bytes "apple"; data := 10 |}]
  ∧ ∀ htNotFound, htFind htNotFound (htNew recycled) (bytes "apple") = 10.
Proof.
  split; [done|]. split; [|split; [|split]].
  - unfold recycled, zeroed. by rewrite length_insert, length_replicate.
  - reflexivity.
  - vm_compute. reflexivity.
  - intros nf. vm_compute. reflexivity.
Qed.

(** C1, at the table holding the single key "apple": [htRem] returns 1
    and unlinks the entry, and [numele] is still 1 on the table that now
    has no entry. *)
Theorem htRem_numele_stale :
  let t := (htAdd (htNew zeroed) (bytes "apple") 10).1 in
  numele t = 1 ∧ length (entries t) = 1%nat
  ∧ (htRem t (bytes "apple")).2 = 1
  ∧ entries (htRem t (bytes "apple")).1 = []
  ∧ numele (htRem t (bytes "apple")).1 = 1.
Proof. vm_compute. repeat split. Qed.

(** ** The hash function *)

Lemma key_at_middle pre b rest : key_at (pre ++ b :: rest) (length pre) = uchar b.
Proof. unfold key_at. by rewrite list_lookup_middle. Qed.

(** The indexed loop, started after the bytes [pre], folds the
    remaining bytes. *)
Lemma htHash_loop_djb2 pre rest hash :
  htHash_loop (pre ++ rest) (length rest) (length pre) hash = djb2 hash rest.
Proof.
  revert pre hash. induction rest as [|b rest IH]; intros pre hash; [done|].
  cbn [length htHash_loop djb2]. rewrite key_at_middle.
  replace (pre ++ b :: rest) with ((pre ++ [b]) ++ rest) by by rewrite <- app_assoc.
  replace (S (length pre)) with (length (pre ++ [b]))
    by (rewrite length_app; cbn; lia).
  apply IH.
Qed.

(** C6. [htHash] of any key, the empty key included, is the djb2 hash
    (seed 5381, then [hash * 33 + byte] modulo 2^32 for each byte in
    order) reduced modulo 100000, and so lies in [0, 100000). *)
Theorem htHash_djb2 (s : list byte) :
  htHash s = djb2_hash s ∧ 0 ≤ htHash s < 100000 ∧ htHash [] = 5381.
Proof.
  split; [|split].
  - unfold htHash, djb2_hash.
    pose proof (htHash_loop_djb2 [] s 5381) as E. cbn [app length] in E.
    by rewrite E, HT_TABLE_SIZE_eq.
  - rewrite <- HT_TABLE_SIZE_eq. apply htHash_range.
  - unfold htHash. cbn [length htHash_loop]. by rewrite HT_TABLE_SIZE_eq.
Qed.

(** ** The Feistel network *)

Lemma uint16_half x : half (uint16 x).
Proof. apply Z.mod_pos_bound. lia. Qed.

Lemma uint16_id x : half x → uint16 x = x.
Proof. intros H. by apply Z.mod_small. Qed.

Lemma lxor_half a b : half a → half b → half (Z.lxor a b).
Proof.
  intros [Ha Ha'] [Hb Hb']. split; [by apply Z.lxor_nonneg|].
  assert (Hl : ∀ x, 0 ≤ x < 2 ^ 16 → Z.log2 x < 16).
  { intros x [H0 H1]. destruct (decide (x = 0)) as [->|]; [done|].
    apply Z.log2_lt_pow2; lia. }
  destruct (decide (Z.lxor a b = 0)) as [->|Hne]; [done|].
  assert (0 ≤ Z.lxor a b) by by apply Z.lxor_nonneg.
  apply Z.log2_lt_pow2; [lia|].
  pose proof (Z.log2_lxor a b Ha Hb). pose proof (Hl a). pose proof (Hl b). lia.
Qed.

Lemma lxor_cancel_r a b : Z.lxor (Z.lxor a b) b = a.
Proof. by rewrite Z.lxor_assoc, Z.lxor_nilpotent, Z.lxor_0_r. Qed.

Lemma int2int_round_halves lr : halves (int2int_round lr).
Proof. destruct lr as [l r]. split; apply uint16_half. Qed.

Lemma int2int_unround_halves lr : halves (int2int_unround lr).
Proof. destruct lr as [l r]. split; apply uint16_half. Qed.

Lemma int2int_unround_round lr :
  halves lr → int2int_unround (int2int_round lr) = lr.
Proof.
  destruct lr as [l r]. intros [Hl Hr]. cbn [fst snd] in *.
  unfold int2int_round, int2int_unround.
  rewrite (uint16_id r) by done.
  set (F := uint16 (Z.land _ _)).
  rewrite (uint16_id (Z.lxor l F)) by (apply lxor_half; [done|apply uint16_half]).
  rewrite lxor_cancel_r. by rewrite !uint16_id.
Qed.

Lemma int2int_round_unround lr :
  halves lr → int2int_round (int2int_unround lr) = lr.
Proof.
  destruct lr as [l r]. intros [Hl Hr]. cbn [fst snd] in *.
  unfold int2int_round, int2int_unround.
  rewrite (uint16_id l) by done.
  set (F := uint16 (Z.land _ _)).
  rewrite (uint16_id (Z.lxor r F)) by (apply lxor_half; [done|apply uint16_half]).
  rewrite lxor_cancel_r. by rewrite !uint16_id.
Qed.

Lemma iter_halves (f : Z * Z → Z * Z) n lr :
  (∀ x, halves (f x)) → halves lr → halves (Nat.iter n f lr).
Proof. intros Hf H. destruct n; [done|]. apply Hf. Qed.

Lemma iter_unround_round n lr :
  halves lr → Nat.iter n int2int_unround (Nat.iter n int2int_round lr) = lr.
Proof.
  intros H. induction n as [|n IH]; [done|].
  change (Nat.iter (S n) int2int_round lr)
    with (int2int_round (Nat.iter n int2int_round lr)).
  rewrite Nat.iter_succ_r, int2int_unround_round; [done|].
  by apply iter_halves; [apply int2int_round_halves|].
Qed.

Lemma iter_round_unround n lr :
  halves lr → Nat.iter n int2int_round (Nat.iter n int2int_unround lr) = lr.
Proof.
  intros H. induction n as [|n IH]; [done|].
  change (Nat.iter (S n) int2int_unround lr)
    with (int2int_unround (Nat.iter n int2int_unround lr)).
  rewrite Nat.iter_succ_r, int2int_round_unround; [done|].
  by apply iter_halves; [apply int2int_unround_halves|].
Qed.

Lemma lor_shiftl_halves l r :
  half l → half r → Z.lor (Z.shiftl r 16) l = r * 2 ^ 16 + l.
Proof.
  intros Hl Hr. rewrite Z.shiftl_mul_pow2 by done.
  pose proof (Z.add_lor_land (r * 2 ^ 16) l) as E.
  assert (Z.land (r * 2 ^ 16) l = 0) as E0; [|lia].
  rewrite <- (Z.mod_small l (2 ^ 16)) by done.
  rewrite <- (Z.land_ones l 16) by done.
  rewrite (Z.land_comm l), Z.land_assoc, Z.land_ones by done.
  rewrite Z.mod_mul by done. apply Z.land_0_l.
Qed.

Lemma join32_halves lr : halves lr → join32 lr = lr.2 * 2 ^ 16 + lr.1.
Proof.
  intros [Hl Hr]. unfold join32. rewrite lor_shiftl_halves by done.
  apply Z.mod_small. unfold half in *. lia.
Qed.

Lemma split32_spec x :
  0 ≤ x < 2 ^ 32 → split32 x = (x mod 2 ^ 16, x / 2 ^ 16) ∧ halves (split32 x).
Proof.
  intros Hx. unfold split32.
  change 0xffff with (Z.ones 16).
  rewrite Z.land_ones, Z.shiftr_div_pow2 by done.
  assert (half (x mod 2 ^ 16)) by (apply Z.mod_pos_bound; lia).
  assert (half (x / 2 ^ 16)).
  { split; [apply Z.div_pos; lia|]. apply Z.div_lt_upper_bound; lia. }
  rewrite !uint16_id by done. done.
Qed.

Lemma split32_join32 lr : halves lr → split32 (join32 lr) = lr.
Proof.
  intros H. pose proof H as [Hl Hr]. rewrite join32_halves by done.
  destruct lr as [l r]. cbn [fst snd] in *. unfold half in *.
  destruct (split32_spec (r * 2 ^ 16 + l)) as [-> _]; [lia|].
  f_equal.
  - rewrite Z.add_comm, Z.mod_add by done. by apply Z.mod_small.
  - rewrite Z.add_comm, Z.div_add by done. rewrite Z.div_small by done. lia.
Qed.

Lemma join32_split32 x : 0 ≤ x < 2 ^ 32 → join32 (split32 x) = x.
Proof.
  intros Hx. destruct (split32_spec x Hx) as [E H].
  rewrite join32_halves by done. rewrite E. cbn [fst snd].
  pose proof (Z.div_mod x (2 ^ 16)). lia.
Qed.

Lemma join32_range lr : 0 ≤ join32 lr < 2 ^ 32.
Proof. apply Z.mod_pos_bound. lia. Qed.

Lemma int2int_eq x :
  int2int x = join32 (Nat.iter 8 int2int_round (split32 x)).
Proof.
  unfold int2int, join32, split32.
  by destruct (Nat.iter 8 int2int_round _) as [l r].
Qed.

Lemma int2int_inv_eq y :
  int2int_inv y = join32 (Nat.iter 8 int2int_unround (split32 y)).
Proof.
  unfold int2int_inv, join32, split32.
  by destruct (Nat.iter 8 int2int_unround _) as [l r].
Qed.

Lemma int2int_range x : 0 ≤ int2int x < 2 ^ 32.
Proof. rewrite int2int_eq. apply join32_range. Qed.

Lemma int2int_inv_int2int x : 0 ≤ x < 2 ^ 32 → int2int_inv (int2int x) = x.
Proof.
  intros Hx. rewrite int2int_inv_eq, int2int_eq.
  destruct (split32_spec x Hx) as [_ H].
  rewrite split32_join32
    by (apply iter_halves; [apply int2int_round_halves|done]).
  rewrite iter_unround_round by done. by apply join32_split32.
Qed.

Lemma int2int_int2int_inv y : 0 ≤ y < 2 ^ 32 → int2int (int2int_inv y) = y.
Proof.
  intros Hy. rewrite int2int_inv_eq, int2int_eq.
  destruct (split32_spec y Hy) as [_ H].
  rewrite split32_join32
    by (apply iter_halves; [apply int2int_unround_halves|done]).
  rewrite iter_round_unround by done. by apply join32_split32.
Qed.

Lemma int2int_inj x y :
  0 ≤ x < 2 ^ 32 → 0 ≤ y < 2 ^ 32 → int2int x = int2int y → x = y.
Proof.
  intros Hx Hy E.
  rewrite <- (int2int_inv_int2int x), <- (int2int_inv_int2int y) by done.
  by rewrite E.
Qed.

(** ** Positional numerals *)

Section Digits.

Variable base : Z.
Variable dig : Z → byte.
Variable val : byte → Z.
Hypothesis base_gt_1 : 1 < base.
Hypothesis val_dig : ∀ d, 0 ≤ d < base → val (dig d) = d.

Lemma length_digits_lsb n v : (length (digits_lsb base dig n v) ≤ n)%nat.
Proof.
  revert v. induction n as [|n IH]; intros v; cbn; [done|].
  destruct (v / base =? 0); cbn; [lia|]. specialize (IH (v / base)). lia.
Qed.

Lemma digits_lsb_nonempty n v : digits_lsb base dig (S n) v ≠ [].
Proof. done. Qed.

(** With enough digits allowed, the digit string determines the
    number. *)
Lemma undigits_digits_lsb n v :
  0 ≤ v < base ^ Z.of_nat n → undigits base val (digits_lsb base dig n v) = v.
Proof.
  revert v. induction n as [|n IH]; intros v Hv.
  - cbn in *. lia.
  - cbn [digits_lsb undigits foldr].
    pose proof (Z.mod_pos_bound v base ltac:(lia)) as Hm.
    pose proof (Z.div_mod v base ltac:(lia)) as Hd.
    rewrite val_dig by done.
    destruct (v / base =? 0) eqn:E.
    + apply Z.eqb_eq in E. cbn. lia.
    + fold (undigits base val (digits_lsb base dig n (v / base))).
      rewrite IH; [lia|]. split; [apply Z.div_pos; lia|].
      apply Z.div_lt_upper_bound; [lia|].
      rewrite Nat2Z.inj_succ, Z.pow_succ_r in Hv by lia. lia.
Qed.

Lemma digits_lsb_inj n v1 v2 :
  0 ≤ v1 < base ^ Z.of_nat n → 0 ≤ v2 < base ^ Z.of_nat n →
  digits_lsb base dig n v1 = digits_lsb base dig n v2 → v1 = v2.
Proof.
  intros H1 H2 E.
  rewrite <- (undigits_digits_lsb n v1), <- (undigits_digits_lsb n v2) by done.
  by rewrite E.
Qed.

End Digits.

Lemma set_index_set_at d : 0 ≤ d < setlen → set_index (set_at d) = d.
Proof.
  intros Hd.
  assert (H : Forall (λ d, set_index (set_at d) = d) (seqZ 0 62)).
  { apply (bool_decide_unpack _). vm_compute. exact I. }
  rewrite Forall_forall in H. apply H, elem_of_seqZ. unfold setlen in Hd. lia.
Qed.

Lemma digit_value_digit d : 0 ≤ d < 10 → digit_value (digit d) = d.
Proof.
  intros Hd.
  assert (H : Forall (λ d, digit_value (digit d) = d) (seqZ 0 10)).
  { apply (bool_decide_unpack _). vm_compute. exact I. }
  rewrite Forall_forall in H. apply H, elem_of_seqZ. lia.
Qed.

(** ** The key generators *)

(** On a buffer with room for the stores, the loop of [int2alphakey]
    appends the base-62 digits of [i], least significant first, to the
    [len] bytes it was given. *)
Lemma int2alphakey_loop_digits n s len i :
  0 ≤ len → (Z.to_nat len + n ≤ length s)%nat →
  let ds := digits_lsb setlen set_at n i in
  ∃ s', int2alphakey_loop n s len i = (s', len + Z.of_nat (length ds))
      ∧ length s' = length s
      ∧ take (Z.to_nat (len + Z.of_nat (length ds))) s' = take (Z.to_nat len) s ++ ds.
Proof.
  revert s len i. induction n as [|n IH]; intros s len i Hlen Hroom ds.
  - exists s. cbn. rewrite Z.add_0_r, app_nil_r. done.
  - cbn [int2alphakey_loop]. unfold ds. cbn [digits_lsb].
    set (c := set_at (i mod setlen)). set (s1 := <[Z.to_nat len := c]> s).
    assert (Hs1 : take (Z.to_nat (len + 1)) s1 = take (Z.to_nat len) s ++ [c]).
    { replace (Z.to_nat (len + 1)) with (S (Z.to_nat len)) by lia.
      rewrite (take_S_r s1 _ c) by (apply list_lookup_insert_eq; lia).
      unfold s1. by rewrite take_insert_ge. }
    destruct (i / setlen =? 0) eqn:E.
    + exists s1. cbn [length]. split; [done|]. split; [apply length_insert|].
      done.
    + destruct (IH s1 (len + 1) (i / setlen)) as (s' & -> & Hl & Ht).
      * lia.
      * unfold s1. rewrite length_insert. lia.
      * exists s'. cbn [length].
        set (ds' := digits_lsb setlen set_at n (i / setlen)) in *.
        replace (len + Z.of_nat (S (length ds')))
          with (len + 1 + Z.of_nat (length ds')) by lia.
        split; [done|]. split.
        -- unfold s1 in Hl. by rewrite length_insert in Hl.
        -- rewrite Ht, Hs1. by rewrite <- app_assoc.
Qed.

(** The key that [int2alphakey] leaves in a buffer of [maxlen] bytes. *)
Lemma int2alphakey_key s maxlen i :
  0 < maxlen → (Z.to_nat maxlen ≤ length s)%nat →
  let ds := digits_lsb setlen set_at (Z.to_nat (maxlen - 1)) i in
  ∃ s', int2alphakey s maxlen i = (s', Z.of_nat (length ds))
      ∧ length s' = length s
      ∧ take (length ds) s' = ds.
Proof.
  intros Hm Hroom ds. unfold int2alphakey.
  destruct (maxlen =? 0) eqn:E; [apply Z.eqb_eq in E; lia|].
  destruct (int2alphakey_loop_digits (Z.to_nat (maxlen - 1)) s 0 i)
    as (s' & -> & Hl & Ht); [lia|cbn; lia|].
  fold ds in Ht |- *. rewrite Z.add_0_l, Nat2Z.id in *.
  change (take (Z.to_nat 0) s) with (@nil byte) in Ht. cbn [app] in Ht.
  eexists. split; [done|]. split.
  - by rewrite length_insert.
  - by rewrite take_insert_ge.
Qed.

(** The length [int2alphakey] returns leaves room for the terminating
    zero, whatever the capacity. *)
Lemma int2alphakey_loop_len n s len i :
  len ≤ (int2alphakey_loop n s len i).2 ≤ len + Z.of_nat n.
Proof.
  revert s len i. induction n as [|n IH]; intros s len i; cbn [int2alphakey_loop].
  - cbn. lia.
  - destruct (i / setlen =? 0); [cbn; lia|].
    specialize (IH (<[Z.to_nat len := set_at (i mod setlen)]> s) (len + 1)
                  (i / setlen)). lia.
Qed.

Lemma int2alphakey_within s maxlen i :
  0 ≤ maxlen →
  0 ≤ (int2alphakey s maxlen i).2 ≤ Z.max 0 (maxlen - 1).
Proof.
  intros Hm. unfold int2alphakey.
  destruct (Z.eqb_spec maxlen 0) as [->|Hne]; [cbn; lia|].
  pose proof (int2alphakey_loop_len (Z.to_nat (maxlen - 1)) s 0 i) as Hl.
  destruct (int2alphakey_loop _ _ _ _) as [s' len]. cbn [snd] in *. lia.
Qed.

Lemma decimal_inj v1 v2 :
  0 ≤ v1 < 10 ^ 20 → 0 ≤ v2 < 10 ^ 20 → decimal v1 = decimal v2 → v1 = v2.
Proof.
  intros H1 H2 E. unfold decimal in E.
  apply (f_equal (@rev byte)) in E. rewrite !rev_involutive in E.
  by apply (digits_lsb_inj 10 digit digit_value ltac:(lia) digit_value_digit
              20%nat).
Qed.

Lemma length_decimal v : (1 ≤ length (decimal v) ≤ 20)%nat.
Proof.
  unfold decimal. rewrite length_rev. split.
  - cbn. lia.
  - apply length_digits_lsb.
Qed.

(** [snprintf] into a buffer with room for the whole output and the
    terminating zero. *)
Lemma snprintf_lu_fits s maxlen v :
  Z.of_nat (length (decimal v)) < maxlen → (Z.to_nat maxlen ≤ length s)%nat →
  ∃ s', snprintf_lu s maxlen v = (s', Z.of_nat (length (decimal v)))
      ∧ length s' = length s
      ∧ take (length (decimal v)) s' = decimal v
      ∧ s' !! length (decimal v) = Some x00.
Proof.
  intros Hm Hroom. unfold snprintf_lu. pose proof (length_decimal v) as Hl.
  destruct (maxlen =? 0) eqn:E; [apply Z.eqb_eq in E; lia|].
  rewrite Z.min_l by lia. rewrite Nat2Z.id. rewrite take_ge by done.
  eexists. split; [done|]. split; [|split].
  - rewrite !length_app, length_drop. cbn [length]. lia.
  - by rewrite <- app_assoc, take_app_length.
  - rewrite <- app_assoc. cbn [app]. by apply list_lookup_middle.
Qed.

Lemma snprintf_lu_key s maxlen v :
  20 < maxlen → (Z.to_nat maxlen ≤ length s)%nat →
  ∃ s', snprintf_lu s maxlen v = (s', Z.of_nat (length (decimal v)))
      ∧ length s' = length s
      ∧ take (length (decimal v)) s' = decimal v.
Proof.
  intros Hm Hroom. pose proof (length_decimal v) as Hl.
  destruct (snprintf_lu_fits s maxlen v) as (s' & E & H1 & H2 & _);
    [lia|done|]. by exists s'.
Qed.

(** The keys [fuzzTest] reads from a 64-byte buffer in the two
    deterministic modes. *)
Lemma int2key_INT_key s i g :
  length s = 64%nat →
  key_of (int2key s 64 i KEY_INT g) = Some (decimal i).
Proof.
  intros Hs. unfold int2key. cbn [Z.eqb KEY_INT].
  destruct (snprintf_lu_key s 64 i) as (s' & -> & _ & Ht); [lia|lia|].
  cbn -[decimal]. by rewrite Nat2Z.id, Ht.
Qed.

Lemma int2key_UNIQUE_ALPHA_key s i g :
  length s = 64%nat →
  key_of (int2key s 64 i KEY_UNIQUE_ALPHA g)
  = Some (digits_lsb setlen set_at 63 (int2int i)).
Proof.
  intros Hs. unfold int2key. cbn [Z.eqb KEY_INT KEY_UNIQUE_ALPHA Pos.eqb].
  destruct (int2alphakey_key s 64 (int2int i)) as (s' & -> & _ & Ht); [lia|lia|].
  cbn -[digits_lsb int2int]. rewrite Nat2Z.id. by rewrite Ht.
Qed.

(** C7. [int2int] maps the 32-bit values onto the 32-bit values one to
    one, and so [KEY_UNIQUE_ALPHA] keys generated in 64-byte buffers
    for two distinct 32-bit indices differ. *)
Theorem int2int_bijection_keys :
  (∀ x, 0 ≤ int2int x < 2 ^ 32)
  ∧ (∀ x y, 0 ≤ x < 2 ^ 32 → 0 ≤ y < 2 ^ 32 → int2int x = int2int y → x = y)
  ∧ (∀ y, 0 ≤ y < 2 ^ 32 → ∃ x, 0 ≤ x < 2 ^ 32 ∧ int2int x = y)
  ∧ (∀ s1 s2 g1 g2 i j,
       length s1 = 64%nat → length s2 = 64%nat →
       0 ≤ i < 2 ^ 32 → 0 ≤ j < 2 ^ 32 → i ≠ j →
       ∃ k1 k2,
         key_of (int2key s1 64 i KEY_UNIQUE_ALPHA g1) = Some k1
         ∧ key_of (int2key s2 64 j KEY_UNIQUE_ALPHA g2) = Some k2
         ∧ k1 ≠ k2).
Proof.
  split; [apply int2int_range|]. split; [apply int2int_inj|]. split.
  - intros y Hy. exists (int2int_inv y). split.
    + rewrite int2int_inv_eq. apply join32_range.
    + by apply int2int_int2int_inv.
  - intros s1 s2 g1 g2 i j Hs1 Hs2 Hi Hj Hne.
    rewrite !int2key_UNIQUE_ALPHA_key by done.
    eexists _, _. split; [done|]. split; [done|].
    intros E. apply Hne, int2int_inj; [done..|].
    pose proof (int2int_range i). pose proof (int2int_range j).
    assert (2 ^ 32 < setlen ^ Z.of_nat 63) by (vm_compute; done).
    apply (digits_lsb_inj setlen set_at set_index ltac:(done) set_index_set_at
             63%nat); [lia..|done].
Qed.

Lemma int2int_bijection_keys_witness :
  ∃ k1 k2,
    key_of (int2key buf64 64 0 KEY_UNIQUE_ALPHA rand0) = Some k1
    ∧ key_of (int2key buf64 64 4294967295 KEY_UNIQUE_ALPHA rand0) = Some k2
    ∧ k1 ≠ k2.
Proof.
  apply (proj2 (proj2 (proj2 int2int_bijection_keys))); [reflexivity..|lia|lia|lia].
Defined.

(** C8. In mode [KEY_INT] with a 64-byte buffer the key of an index is
    its decimal representation, and the keys of the indices 0 to 999999
    are pairwise distinct: a list of 1,000,000 keys without
    repetition. *)
Theorem int_keys_distinct :
  (∀ s i g, length s = 64%nat →
     key_of (int2key s 64 i KEY_INT g) = Some (decimal i))
  ∧ (∀ i j, 0 ≤ i < 1000000 → 0 ≤ j < 1000000 → i ≠ j → decimal i ≠ decimal j)
  ∧ length (int_keys (Z.to_nat 1000000)) = Z.to_nat 1000000
  ∧ NoDup (int_keys (Z.to_nat 1000000)).
Proof.
  split; [apply int2key_INT_key|]. split; [|split].
  - intros i j Hi Hj Hne E. apply Hne. apply decimal_inj; [lia..|done].
  - unfold int_keys. by rewrite length_fmap, length_seq.
  - unfold int_keys. apply NoDup_fmap_2_strong; [|apply NoDup_seq].
    intros x y Hx%elem_of_seq Hy%elem_of_seq.
    rewrite !int2key_INT_key by done. intros [= E].
    apply decimal_inj in E; lia.
Qed.

Lemma int_keys_distinct_witness :
  key_of (int2key buf64 64 999999 KEY_INT rand0) = Some (decimal 999999)
  ∧ decimal 0 ≠ decimal 999999.
Proof.
  split.
  - apply (proj1 int_keys_distinct). reflexivity.
  - apply (proj1 (proj2 int_keys_distinct)); lia.
Defined.

(** C10. With a mode that is none of the three defined ones [int2key]
    returns 0, whatever the index and the buffer: the buffer and the
    random stream are untouched and the key read back is empty. *)
Theorem int2key_unknown_mode (s : list byte) (maxlen i mode : Z) (g : rand_state) :
  mode ≠ KEY_INT → mode ≠ KEY_UNIQUE_ALPHA → mode ≠ KEY_RANDOM →
  int2key s maxlen i mode g = Some (s, 0, g)
  ∧ key_of (int2key s maxlen i mode g) = Some [].
Proof.
  intros H0 H1 H2. unfold int2key.
  destruct (Z.eqb_spec mode KEY_INT); [done|].
  destruct (Z.eqb_spec mode KEY_UNIQUE_ALPHA); [done|].
  destruct (Z.eqb_spec mode KEY_RANDOM); [done|]. done.
Qed.

Lemma int2key_unknown_mode_witness :
  int2key buf64 64 7 3 rand0 = Some (buf64, 0, rand0)
  ∧ key_of (int2key buf64 64 7 3 rand0) = Some [].
Proof. apply int2key_unknown_mode; unfold KEY_INT, KEY_UNIQUE_ALPHA, KEY_RANDOM; lia. Defined.

(** [int2key] at two capacities that [fuzzTest] never passes.  In
    mode [KEY_INT] with a 2-byte buffer and the index 12345, one digit
    and the terminating zero are stored and the length returned is 5;
    in mode [KEY_RANDOM] with capacity 0 the program computes
    [rand() % 0] and has no result. *)
Lemma int2key_small_buffer (g : rand_state) :
  int2key [x00; x00] 2 12345 KEY_INT g = Some (bytes "1" ++ [x00], 5, g)
  ∧ (∀ s i, int2key s 0 i KEY_RANDOM g = None).
Proof. split; [|intros s i]; reflexivity. Qed.

(** With a capacity other than 0 every mode returns. *)
Lemma int2key_total s maxlen i mode g :
  maxlen ≠ 0 → is_Some (int2key s maxlen i mode g).
Proof.
  intros Hm. unfold int2key.
  destruct (mode =? KEY_INT); [by destruct (snprintf_lu _ _ _)|].
  destruct (mode =? KEY_UNIQUE_ALPHA); [by destruct (int2alphakey _ _ _)|].
  destruct (mode =? KEY_RANDOM); [|done].
  destruct (Z.eqb_spec maxlen 0); [done|].
  destruct (rand g) as [x g1]. by destruct (int2key_fill _ _ _ _).
Qed.

(** ** The fuzz test and the driver *)

Section HarnessFacts.

Context {R : RaxOps}.
Variable htNotFound : Z.

(** The insertion loop returns for every number of iterations. *)
Lemma fuzzTest_insert_total keymode n i ht rx g :
  is_Some (fuzzTest_insert keymode n i ht rx g).
Proof.
  revert i ht rx g. induction n as [|n IH]; intros i ht rx g; [done|].
  cbn [fuzzTest_insert].
  destruct (int2key_total buf64 64 (uint32 i) keymode g) as [[[buf len] g1] ->];
    [done|].
  cbn [mbind option_bind].
  destruct (htAdd ht _ _) as [ht1 r1]. destruct (raxInsert rx _ _) as [rx1 r2].
  case_bool_decide; [done|]. apply IH.
Qed.

(** A mismatch on the first insertion ends the loop there: the later
    indices are never generated. *)
Lemma fuzzTest_insert_stops keymode n i ht rx g buf len g1 :
  int2key buf64 64 (uint32 i) keymode g = Some (buf, len, g1) →
  let key := take (Z.to_nat (uint32 len)) buf in
  (htAdd ht key (htHash key)).2 ≠ (raxInsert rx key (htHash key)).2 →
  fuzzTest_insert keymode (S n) i ht rx g
  = Some (false, (htAdd ht key (htHash key)).1,
          (raxInsert rx key (htHash key)).1, g1).
Proof.
  intros E key Hne. cbn [fuzzTest_insert]. rewrite E. cbn [mbind option_bind].
  fold key. destruct (htAdd ht _ _) as [ht1 r1].
  destruct (raxInsert rx _ _) as [rx1 r2]. cbn [fst snd] in *.
  by rewrite bool_decide_eq_true_2.
Qed.

(** One way out of [fuzzTest]: the result is there, the output is the
    old one followed by the banner and the rest, and [tac] shows what
    the rest is. *)
Ltac finish_run tac :=
  eexists _, _, _; split; [reflexivity|];
  cbn [printed print]; rewrite <- ?app_assoc; split; [reflexivity|]; tac.

(** Every run returns 0 or 1, prints its banner first and then what
    [run_report] says, and changes nothing else of what was printed. *)
Lemma fuzzTest_n_run n keymode w :
  ∃ r w' out,
    fuzzTest_n htNotFound n keymode w = Some (r, w')
    ∧ printed w' = printed w ++ OutFuzzTest keymode :: out
    ∧ run_report r out.
Proof.
  unfold fuzzTest_n. cbn [print rng heap mallocs printed].
  destruct (fuzzTest_insert_total keymode n 0 (htNew (heap w (mallocs w)))
              raxNew (rng w)) as [[[[ok ht] rx] g] ->].
  cbn [mbind option_bind].
  destruct ok; cbn [negb]; [case_bool_decide|]; [| |].
  - finish_run ltac:(right; split; [done|]; eexists; split; [|by left]; done).
  - destruct (fuzzTest_iterate _ _ _ _ _) as [numkeys|[[v1 v2] e]];
      [case_bool_decide|].
    + finish_run ltac:(right; split; [done|]; eexists; split; [|right; eauto]; done).
    + finish_run ltac:(left; eauto).
    + finish_run ltac:(right; split; [done|]; eexists; split; [|right; eauto]; done).
  - finish_run ltac:(right; split; [done|]; eexists; split; [|by left]; done).
Qed.

Lemma main_fuzz_eq keymode errors w r w' :
  fuzzTest htNotFound keymode w = Some (r, w') →
  main_fuzz htNotFound keymode (errors, w)
  = Some (errors + failures [r], w').
Proof.
  intros E. unfold main_fuzz. rewrite E. cbn [mbind option_bind].
  unfold failures. cbn [filter list_filter].
  repeat case_decide; try done; case_bool_decide; try done; cbn; do 2 f_equal; lia.
Qed.

Lemma failures_app rs1 rs2 : failures (rs1 ++ rs2) = failures rs1 + failures rs2.
Proof. unfold failures. rewrite filter_app, length_app. lia. Qed.

End HarnessFacts.

(** An unrecognised argument ends the process with status 1 after the
    usage message; no test is run. *)
Lemma main_usage {R : RaxOps} htNotFound prog w :
  main htNotFound [prog; "--help"%string] w = Some (1, print (OutUsage prog) w).
Proof. reflexivity. Qed.

(** C9. Started without arguments (or with [--fuzz]), [main] runs
    [fuzzTest] in the three modes one after the other, each on the
    state the one before left, whatever the earlier ones returned; it
    always returns, and its exit status is the number of runs that
    returned non-zero, so 0 exactly when all three passed.  Each run
    prints its banner; a failed run prints one failure report and
    stops.  With [--units] alone no fuzz test runs and the status is
    0. *)
Theorem main_exit_status {R : RaxOps} (htNotFound : Z) (prog : string) (w : world) :
  ∃ r1 w1 r2 w2 r3 w3 out1 out2 out3,
    fuzzTest htNotFound KEY_INT w = Some (r1, w1)
    ∧ fuzzTest htNotFound KEY_UNIQUE_ALPHA w1 = Some (r2, w2)
    ∧ fuzzTest htNotFound KEY_RANDOM w2 = Some (r3, w3)
    ∧ main htNotFound [prog] w = Some (failures [r1; r2; r3], w3)
    ∧ main htNotFound [prog; "--fuzz"%string] w = main htNotFound [prog] w
    ∧ main htNotFound [prog; "--units"%string] w = Some (0, w)
    ∧ 0 ≤ failures [r1; r2; r3] ≤ 3
    ∧ (failures [r1; r2; r3] = 0 ↔ r1 = 0 ∧ r2 = 0 ∧ r3 = 0)
    ∧ printed w3 = printed w ++ (OutFuzzTest KEY_INT :: out1)
                     ++ (OutFuzzTest KEY_UNIQUE_ALPHA :: out2)
                     ++ (OutFuzzTest KEY_RANDOM :: out3)
    ∧ run_report r1 out1 ∧ run_report r2 out2 ∧ run_report r3 out3.
Proof.
  destruct (fuzzTest_n_run htNotFound (Z.to_nat 1000000) KEY_INT w)
    as (r1 & w1 & o1 & E1 & P1 & Q1).
  destruct (fuzzTest_n_run htNotFound (Z.to_nat 1000000) KEY_UNIQUE_ALPHA w1)
    as (r2 & w2 & o2 & E2 & P2 & Q2).
  destruct (fuzzTest_n_run htNotFound (Z.to_nat 1000000) KEY_RANDOM w2)
    as (r3 & w3 & o3 & E3 & P3 & Q3).
  fold (fuzzTest htNotFound) in E1, E2, E3.
  exists r1, w1, r2, w2, r3, w3, o1, o2, o3.
  assert (Em : main htNotFound [prog] w = Some (failures [r1; r2; r3], w3)).
  { unfold main. cbn [length Z.of_nat Z.ltb Z.compare].
    rewrite (main_fuzz_eq _ _ _ _ _ _ E1). cbn [mbind option_bind].
    rewrite (main_fuzz_eq _ _ _ _ _ _ E2). cbn [mbind option_bind].
    rewrite (main_fuzz_eq _ _ _ _ _ _ E3).
    change [r1; r2; r3] with ([r1] ++ [r2] ++ [r3]).
    rewrite !failures_app. f_equal. f_equal. lia. }
  assert (Ef : main htNotFound [prog; "--fuzz"%string] w = main htNotFound [prog] w).
  { unfold main. cbn [length Z.of_nat Z.ltb Z.compare Pos.of_succ_nat
                       Pos.succ Pos.compare Pos.compare_cont drop].
    change (main_args ["--fuzz"%string] false false false)
      with (Some (false, false, true)). reflexivity. }
  assert (Hz : ∀ r, failures [r] = 0 ↔ r = 0).
  { intros r. unfold failures. cbn [filter list_filter].
    case_decide; cbn [length]; lia. }
  assert (Hb : ∀ r, 0 ≤ failures [r] ≤ 1).
  { intros r. unfold failures. cbn [filter list_filter].
    case_decide; cbn [length]; lia. }
  change [r1; r2; r3] with ([r1] ++ [r2] ++ [r3]) in *.
  rewrite !failures_app in *.
  pose proof (Hb r1). pose proof (Hb r2). pose proof (Hb r3).
  pose proof (Hz r1). pose proof (Hz r2). pose proof (Hz r3).
  split; [exact E1|]. split; [exact E2|]. split; [exact E3|].
  split; [exact Em|]. split; [exact Ef|]. split; [reflexivity|].
  split; [lia|]. split; [lia|].
  split; [|by repeat split].
  rewrite P3, P2, P1. by rewrite <- !app_assoc.
Qed.

(** ** The buffer of [fuzzTest] *)

Lemma int2key_fill_random n i s g :
  0 ≤ i → (Z.to_nat i + n ≤ length s)%nat →
  ∃ s', int2key_fill n i s g = (s', (random_bytes n g).2)
      ∧ length s' = length s
      ∧ take (Z.to_nat i + n) s' = take (Z.to_nat i) s ++ (random_bytes n g).1.
Proof.
  revert i s g. induction n as [|n IH]; intros i s g Hi Hroom.
  - exists s. cbn. by rewrite Nat.add_0_r, app_nil_r.
  - cbn [int2key_fill random_bytes]. destruct (rand g) as [x g1].
    set (c := to_uchar (Z.land x 255)). set (s1 := <[Z.to_nat i := c]> s).
    destruct (IH (i + 1) s1 g1) as (s' & -> & Hl & Ht).
    + lia.
    + unfold s1. rewrite length_insert. lia.
    + destruct (random_bytes n g1) as [bs g2]. cbn [fst snd] in *.
      exists s'. split; [done|]. split.
      * unfold s1 in Hl. by rewrite length_insert in Hl.
      * replace (Z.to_nat i + S n)%nat with (Z.to_nat (i + 1) + n)%nat by lia.
        rewrite Ht. replace (Z.to_nat (i + 1)) with (S (Z.to_nat i)) by lia.
        rewrite (take_S_r s1 _ c) by (apply list_lookup_insert_eq; lia).
        unfold s1. rewrite take_insert_ge by done. by rewrite <- app_assoc.
Qed.

(** The array [key] of [fuzzTest] is not initialised; what the caller
    observes of [int2key] on a 64-byte buffer does not depend on what
    the buffer held. *)
Lemma int2key_buffer_irrelevant s1 s2 i mode g :
  length s1 = 64%nat → length s2 = 64%nat →
  observed (int2key s1 64 i mode g) = observed (int2key s2 64 i mode g).
Proof.
  intros H1 H2. unfold int2key.
  destruct (mode =? KEY_INT).
  { destruct (snprintf_lu_key s1 64 i) as (s1' & -> & _ & Ht1); [lia..|].
    destruct (snprintf_lu_key s2 64 i) as (s2' & -> & _ & Ht2); [lia..|].
    cbn -[decimal]. by rewrite Nat2Z.id, Ht1, Ht2. }
  destruct (mode =? KEY_UNIQUE_ALPHA).
  { destruct (int2alphakey_key s1 64 (int2int i)) as (s1' & -> & _ & Ht1); [lia..|].
    destruct (int2alphakey_key s2 64 (int2int i)) as (s2' & -> & _ & Ht2); [lia..|].
    cbn -[digits_lsb int2int]. by rewrite Nat2Z.id, Ht1, Ht2. }
  destruct (mode =? KEY_RANDOM); [|done].
  cbn [Z.eqb]. destruct (rand g) as [x g1].
  assert (Hr : 0 ≤ x mod 64 < 64) by (apply Z.mod_pos_bound; lia).
  destruct (int2key_fill_random (Z.to_nat (x mod 64)) 0 s1 g1)
    as (s1' & -> & _ & Ht1); [lia..|].
  destruct (int2key_fill_random (Z.to_nat (x mod 64)) 0 s2 g1)
    as (s2' & -> & _ & Ht2); [lia..|].
  change (Z.to_nat 0 + Z.to_nat (x mod 64))%nat with (Z.to_nat (x mod 64))
    in Ht1, Ht2.
  cbn [observed mbind option_bind]. by rewrite Ht1, Ht2.
Qed.

(** ** The oracle as a finite map *)

Lemma NoDup_fmap_eq {A B} (f : A → B) (l : list A) x y :
  NoDup (f <$> l) → x ∈ l → y ∈ l → f x = f y → x = y.
Proof.
  induction l as [|a l IH]; cbn; [by intros _ ?%elem_of_nil|].
  intros [Ha Hl]%NoDup_cons [->|Hx]%elem_of_cons [->|Hy]%elem_of_cons E; [done|..].
  - destruct Ha. rewrite E. by apply list_elem_of_fmap_2.
  - destruct Ha. rewrite <- E. by apply list_elem_of_fmap_2.
  - by apply IH.
Qed.

Lemma wf_entries t n :
  wf_table t → n ∈ entries t → keylen n = Z.of_nat (length (key n)).
Proof.
  intros (_ & _ & Hwf) (i & c & Hi & Hn)%elem_of_concat.
  by destruct (Hwf _ _ _ Hi Hn).
Qed.

Lemma node_key_eq t n s :
  wf_table t → n ∈ entries t →
  node_key n = (Z.of_nat (length s), s) ↔ key n = s.
Proof.
  intros Hwf Hn. unfold node_key. rewrite (wf_entries t n) by done.
  split; [by intros [= _ ->]|by intros ->].
Qed.

(** On table states, distinct keys (length and bytes) are distinct
    byte sequences. *)
Lemma NoDup_keys t :
  wf_table t → no_dup_keys t → NoDup (key <$> entries t).
Proof.
  intros Hwf Hnd. unfold no_dup_keys in Hnd.
  replace (key <$> entries t) with (snd <$> (node_key <$> entries t))
    by (rewrite <- list_fmap_compose; done).
  apply NoDup_fmap_2_strong; [|done].
  intros [l1 k1] [l2 k2] (n1 & E1 & H1)%list_elem_of_fmap
    (n2 & E2 & H2)%list_elem_of_fmap; cbn; intros ->.
  injection E1 as -> Hk1. injection E2 as -> Hk2.
  rewrite (wf_entries t n1), (wf_entries t n2) by done. congruence.
Qed.

Lemma NoDup_ht_pairs t :
  wf_table t → no_dup_keys t →
  NoDup ((λ n, (key n, data n)) <$> entries t).*1.
Proof.
  intros Hwf Hnd. rewrite <- list_fmap_compose. by apply NoDup_keys.
Qed.

Lemma ht_map_Some t s d :
  wf_table t → no_dup_keys t →
  ht_map t !! s = Some d ↔ ∃ n, n ∈ entries t ∧ key n = s ∧ data n = d.
Proof.
  intros Hwf Hnd. unfold ht_map.
  rewrite <- elem_of_list_to_map by by apply NoDup_ht_pairs.
  rewrite list_elem_of_fmap. split.
  - intros (n & [= -> ->] & Hn). eauto.
  - intros (n & Hn & <- & <-). eauto.
Qed.

Lemma ht_map_None t s :
  wf_table t → ht_map t !! s = None ↔ ¬ has_key t s.
Proof.
  intros Hwf. unfold ht_map. rewrite <- not_elem_of_list_to_map.
  rewrite <- list_fmap_compose. split.
  - intros Hno (n & Hn & Hk). apply Hno.
    apply (node_key_eq t) in Hk; [|done..]. rewrite <- Hk.
    apply list_elem_of_fmap. by exists n.
  - intros Hno (n & -> & Hn)%list_elem_of_fmap. apply Hno. exists n.
    split; [done|]. by apply (node_key_eq t).
Qed.

(** [htFind] reads the map. *)
Lemma htFind_ht_map htNotFound t s :
  wf_table t → no_dup_keys t →
  htFind htNotFound t s = default htNotFound (ht_map t !! s).
Proof.
  intros Hwf Hnd. unfold htFind.
  destruct (htRawLookup t s) as [[[n|] h] p] eqn:E.
  - destruct (htRawLookup_Some _ _ _ _ _ Hwf E) as (-> & Hp & Hk).
    assert (Hn : n ∈ entries t).
    { apply elem_of_concat. eexists _, _. split.
      - apply bucket_lookup, htHash_lt_length, Hwf.
      - by eapply list_elem_of_lookup_2. }
    apply (node_key_eq t) in Hk; [|done..].
    rewrite (proj2 (ht_map_Some t s (data n) Hwf Hnd)); [done|eauto].
  - rewrite (proj2 (ht_map_None t s Hwf)); [done|].
    intros (n & h' & p' & E')%has_key_lookup; [congruence|done].
Qed.

(** The entries before and after [htAdd]: a new node enters the list,
    or the node with the key gets the value where it stands. *)
Lemma entries_htAdd t s d :
  wf_table t →
  ((htAdd t s d).2 = 1 ∧ ¬ has_key t s ∧
     ∃ L1 L2, entries t = L1 ++ L2 ∧
       entries (htAdd t s d).1
       = L1 ++ {| keylen := Z.of_nat (length s); key := s; data := d |} :: L2)
  ∨ ((htAdd t s d).2 = 0 ∧
     ∃ L1 L2 n, key n = s ∧ entries t = L1 ++ n :: L2 ∧
       entries (htAdd t s d).1 = L1 ++ set_data n d :: L2).
Proof.
  intros Hwf. pose proof Hwf as (_ & Hlen & _).
  pose proof (htHash_lt_length t s Hlen) as Hh.
  unfold htAdd. destruct (htRawLookup t s) as [[[n|] h] p] eqn:E.
  - right. destruct (htRawLookup_Some _ _ _ _ _ Hwf E) as (-> & Hp & Hk).
    cbn [fst snd]. split; [done|].
    exists (concat (take (Z.to_nat (htHash s)) (table t))
              ++ take p (bucket t (htHash s))),
      (drop (S p) (bucket t (htHash s))
         ++ concat (drop (S (Z.to_nat (htHash s))) (table t))), n.
    split; [by injection Hk|].
    rewrite entries_insert, (entries_split t (htHash s)) by done.
    rewrite insert_take_drop by by eapply lookup_lt_Some.
    rewrite <- (take_drop_middle _ _ _ Hp) at 1.
    by rewrite <- !app_assoc.
  - left. assert (Hno : ¬ has_key t s).
    { intros (n & h' & p' & E')%has_key_lookup; [congruence|done]. }
    apply htRawLookup_hash in E as ->. cbn [fst snd].
    split; [done|]. split; [done|].
    eexists _, _. split; [by apply entries_split|].
    by rewrite entries_insert.
Qed.

(** The entries before and after [htRem]. *)
Lemma entries_htRem t s :
  wf_table t →
  (¬ has_key t s ∧ htRem t s = (t, 0))
  ∨ ((htRem t s).2 = 1 ∧
     ∃ L1 L2 n, key n = s ∧ entries t = L1 ++ n :: L2 ∧
       entries (htRem t s).1 = L1 ++ L2).
Proof.
  intros Hwf. pose proof Hwf as (_ & Hlen & _).
  pose proof (htHash_lt_length t s Hlen) as Hh.
  destruct (htRawLookup t s) as [[[n|] h] p] eqn:E.
  - right. destruct (htRawLookup_Some _ _ _ _ _ Hwf E) as (-> & Hp & Hk).
    rewrite (htRem_Some _ _ _ _ _ E). cbn [fst snd]. split; [done|].
    exists (concat (take (Z.to_nat (htHash s)) (table t))
              ++ take p (bucket t (htHash s))),
      (drop (S p) (bucket t (htHash s))
         ++ concat (drop (S (Z.to_nat (htHash s))) (table t))), n.
    split; [by injection Hk|].
    rewrite entries_insert, (entries_split t (htHash s)) by done.
    rewrite delete_take_drop.
    rewrite <- (take_drop_middle _ _ _ Hp) at 1.
    by rewrite <- !app_assoc.
  - left. split; [|by eapply htRem_None].
    intros (n & h' & p' & E')%has_key_lookup; [congruence|done].
Qed.

Lemma list_to_map_middle (l1 l2 : list (list byte * Z)) k v :
  NoDup (l1 ++ (k, v) :: l2).*1 →
  list_to_map (l1 ++ (k, v) :: l2)
  = <[k := v]> (list_to_map (l1 ++ l2) : gmap (list byte) Z)
  ∧ (list_to_map (l1 ++ l2) : gmap (list byte) Z) !! k = None.
Proof.
  intros Hnd. split.
  - rewrite (list_to_map_proper _ ((k, v) :: l1 ++ l2)); [done|done|].
    by rewrite Permutation_middle.
  - apply not_elem_of_list_to_map.
    rewrite fmap_app, fmap_cons in Hnd. cbn in Hnd.
    apply NoDup_app in Hnd as (_ & H1 & [H2 _]%NoDup_cons).
    rewrite fmap_app. intros [Hk|Hk]%elem_of_app; [|done].
    apply (H1 _ Hk). by left.
Qed.

Lemma ht_map_middle t L1 L2 n :
  wf_table t → no_dup_keys t → entries t = L1 ++ n :: L2 →
  ht_map t
  = <[key n := data n]> (list_to_map ((λ n, (key n, data n)) <$> L1 ++ L2))
  ∧ (list_to_map ((λ n, (key n, data n)) <$> L1 ++ L2)
       : gmap (list byte) Z) !! key n = None.
Proof.
  intros Hwf Hnd E. pose proof (NoDup_ht_pairs t Hwf Hnd) as Hp.
  unfold ht_map. rewrite E in *. rewrite fmap_app, fmap_cons in Hp.
  rewrite !fmap_app, fmap_cons. by apply list_to_map_middle.
Qed.

(** [htAdd] inserts into the map, and returns 1 exactly when the key
    was not bound. *)
Lemma ht_map_htAdd t s d :
  wf_table t → no_dup_keys t →
  ht_map (htAdd t s d).1 = <[s := d]> (ht_map t)
  ∧ (htAdd t s d).2 = if ht_map t !! s is Some _ then 0 else 1.
Proof.
  intros Hwf Hnd.
  pose proof (wf_table_htAdd t s d Hwf) as Hwf'.
  pose proof (no_dup_keys_htAdd t s d Hwf Hnd) as Hnd'.
  destruct (entries_htAdd t s d Hwf)
    as [(-> & Hno & L1 & L2 & E & E')|(-> & L1 & L2 & n & Hk & E & E')].
  - rewrite (proj2 (ht_map_None t s Hwf) Hno). split; [|done].
    destruct (ht_map_middle _ _ _ _ Hwf' Hnd' E') as [-> _]. cbn [key data].
    unfold ht_map. by rewrite E.
  - destruct (ht_map_middle _ _ _ _ Hwf Hnd E) as [-> _].
    destruct (ht_map_middle _ _ _ _ Hwf' Hnd' E') as [-> _].
    cbn [set_data key data]. rewrite Hk, lookup_insert_eq, insert_insert_eq.
    done.
Qed.

(** [htRem] deletes from the map, and returns 1 exactly when the key
    was bound. *)
Lemma ht_map_htRem t s :
  wf_table t → no_dup_keys t →
  ht_map (htRem t s).1 = delete s (ht_map t)
  ∧ (htRem t s).2 = if ht_map t !! s is Some _ then 1 else 0.
Proof.
  intros Hwf Hnd.
  destruct (entries_htRem t s Hwf)
    as [(Hno & ->)|(-> & L1 & L2 & n & Hk & E & E')].
  - apply (ht_map_None t s Hwf) in Hno. cbn [fst snd].
    rewrite Hno. by rewrite delete_id.
  - destruct (ht_map_middle _ _ _ _ Hwf Hnd E) as [-> Hnone].
    rewrite Hk in *. rewrite lookup_insert_eq, delete_insert_eq.
    rewrite delete_id by done.
    split; [|done]. unfold ht_map. by rewrite E'.
Qed.

Lemma ht_map_zeroed : ht_map (htNew zeroed) = ∅.
Proof. unfold ht_map. by rewrite entries_zeroed. Qed.

Lemma ht_map_ht_run ops t :
  wf_table t → no_dup_keys t →
  ht_map (ht_run ops t) = foldl map_step (ht_map t) ops.
Proof.
  revert t. induction ops as [|o ops IH]; intros t Hwf Hnd; [done|].
  cbn [ht_run foldl]. fold (ht_run ops (ht_step t o)).
  destruct (ht_run_invariant [o] t Hwf Hnd) as [Hwf' Hnd'].
  rewrite IH by done. f_equal. destruct o as [s d|s]; cbn [ht_step map_step].
  - by apply ht_map_htAdd.
  - by apply ht_map_htRem.
Qed.

Lemma wf_table_apple : wf_table apple_table.
Proof. apply wf_table_htAdd, wf_table_zeroed. Qed.

Lemma no_dup_keys_apple : no_dup_keys apple_table.
Proof.
  apply no_dup_keys_htAdd; [apply wf_table_zeroed|apply no_dup_keys_zeroed].
Qed.

(** X1. From a table of null buckets, after any sequence of [htAdd]
    and [htRem] calls, [htFind] returns what a finite map holds after
    the same insertions and deletions: the value last added for the key
    if it was not removed since, and [htNotFound] otherwise. *)
Theorem oracle_refines_map (htNotFound : Z) (ops : list ht_op) (k : list byte) :
  htFind htNotFound (ht_run ops (htNew zeroed)) k
  = default htNotFound (foldl map_step ∅ ops !! k).
Proof.
  destruct (ht_run_invariant ops (htNew zeroed) wf_table_zeroed
              no_dup_keys_zeroed) as [Hwf Hnd].
  rewrite htFind_ht_map by done.
  rewrite ht_map_ht_run by (apply wf_table_zeroed || apply no_dup_keys_zeroed).
  by rewrite ht_map_zeroed.
Qed.

(** X2. On a table state with distinct keys, [htAdd] acts as insertion
    into the map of the table, and its return value tells whether the
    key was bound: 0 if it was, 1 if not. *)
Theorem htAdd_map_insert (t : hashtable) (s : list byte) (d : Z) :
  wf_table t → no_dup_keys t →
  ht_map (htAdd t s d).1 = <[s := d]> (ht_map t)
  ∧ (htAdd t s d).2 = if ht_map t !! s is Some _ then 0 else 1.
Proof. apply ht_map_htAdd. Qed.

Lemma htAdd_map_insert_witness :
  ht_map (htAdd (htNew zeroed) (bytes "apple") 10).1
  = <[bytes "apple" := 10]> (ht_map (htNew zeroed))
  ∧ (htAdd (htNew zeroed) (bytes "apple") 10).2
    = if ht_map (htNew zeroed) !! bytes "apple" is Some _ then 0 else 1.
Proof.
  exact (htAdd_map_insert (htNew zeroed) (bytes "apple") 10
           wf_table_zeroed no_dup_keys_zeroed).
Defined.

(** X3. On a table state with distinct keys, [htRem] acts as deletion
    from the map of the table, and its return value tells whether the
    key was bound: 1 if it was, 0 if not; and when the key was not
    bound the table is returned unchanged. *)
Theorem htRem_map_delete (t : hashtable) (s : list byte) :
  wf_table t → no_dup_keys t →
  ht_map (htRem t s).1 = delete s (ht_map t)
  ∧ (htRem t s).2 = (if ht_map t !! s is Some _ then 1 else 0)
  ∧ (ht_map t !! s = None → htRem t s = (t, 0)).
Proof.
  intros Hwf Hnd. destruct (ht_map_htRem t s Hwf Hnd) as [H1 H2].
  split; [exact H1|]. split; [exact H2|].
  intros Hn. apply (ht_map_None t s Hwf) in Hn.
  exact (proj1 (htRem_unlinks t s Hwf) Hn).
Qed.

Lemma htRem_map_delete_witness :
  ht_map (htRem apple_table (bytes "apple")).1
  = delete (bytes "apple") (ht_map apple_table)
  ∧ (htRem apple_table (bytes "apple")).2
    = (if ht_map apple_table !! bytes "apple" is Some _ then 1 else 0)
  ∧ (ht_map apple_table !! bytes "apple" = None →
     htRem apple_table (bytes "apple") = (apple_table, 0)).
Proof.
  exact (htRem_map_delete apple_table (bytes "apple")
           wf_table_apple no_dup_keys_apple).
Defined.

(** X4. On a table state with distinct keys, an insertion or a removal
    of one key does not change what [htFind] returns for another key,
    and after the removal of a key [htFind] returns [htNotFound] for
    it. *)
Theorem htFind_other_keys (htNotFound : Z) (t : hashtable) (s s' : list byte) (d : Z) :
  wf_table t → no_dup_keys t → s ≠ s' →
  htFind htNotFound (htAdd t s d).1 s' = htFind htNotFound t s'
  ∧ htFind htNotFound (htRem t s).1 s' = htFind htNotFound t s'
  ∧ htFind htNotFound (htRem t s).1 s = htNotFound.
Proof.
  intros Hwf Hnd Hne.
  destruct (ht_run_invariant [OpAdd s d] t Hwf Hnd) as [Hwa Hna].
  destruct (ht_run_invariant [OpRem s] t Hwf Hnd) as [Hwr Hnr].
  cbn [ht_run foldl ht_step] in *.
  rewrite !htFind_ht_map by done.
  rewrite (proj1 (ht_map_htAdd t s d Hwf Hnd)).
  rewrite (proj1 (ht_map_htRem t s Hwf Hnd)).
  by rewrite lookup_insert_ne, lookup_delete_ne, lookup_delete_eq.
Qed.

Lemma htFind_other_keys_witness :
  htFind 0 (htAdd apple_table (bytes "app") 3).1 (bytes "apple")
  = htFind 0 apple_table (bytes "apple")
  ∧ htFind 0 (htRem apple_table (bytes "app")).1 (bytes "apple")
    = htFind 0 apple_table (bytes "apple")
  ∧ htFind 0 (htRem apple_table (bytes "app")).1 (bytes "app") = 0.
Proof.
  apply (htFind_other_keys 0 apple_table (bytes "app") (bytes "apple") 3
           wf_table_apple no_dup_keys_apple).
  discriminate.
Defined.

(** ** The element counter *)

Lemma size_ht_map t :
  wf_table t → no_dup_keys t → size (ht_map t) = length (entries t).
Proof.
  intros Hwf Hnd. unfold ht_map.
  rewrite map_size_list_to_map by by apply NoDup_ht_pairs.
  apply length_fmap.
Qed.

Lemma htAdd_numele t s d :
  numele (htAdd t s d).1
  = if decide ((htAdd t s d).2 = 1) then uint64 (numele t + 1) else numele t.
Proof. unfold htAdd. by destruct (htRawLookup t s) as [[[n|] h] p]. Qed.

(** While the counter cannot overflow, [htAdd] keeps it equal to the
    number of entries. *)
Lemma htAdd_count t s d :
  wf_table t →
  numele t = Z.of_nat (length (entries t)) →
  Z.of_nat (length (entries t)) + 1 < 2 ^ 64 →
  numele (htAdd t s d).1 = Z.of_nat (length (entries (htAdd t s d).1))
  ∧ (length (entries (htAdd t s d).1) ≤ S (length (entries t)))%nat.
Proof.
  intros Hwf Hc Hlt. rewrite htAdd_numele.
  destruct (entries_htAdd t s d Hwf)
    as [(-> & Hno & L1 & L2 & E & E')|(-> & L1 & L2 & n & Hk & E & E')];
    rewrite E', E in *; cbn [decide]; rewrite ?length_app in *;
    cbn [length] in *; rewrite ?length_app in *.
  - rewrite decide_True by done. unfold uint64.
    rewrite Z.mod_small by lia. lia.
  - rewrite decide_False by done. lia.
Qed.

Lemma adds_count kvs t :
  wf_table t → no_dup_keys t →
  numele t = Z.of_nat (length (entries t)) →
  Z.of_nat (length (entries t) + length kvs) < 2 ^ 64 →
  numele (ht_run (adds kvs) t)
  = Z.of_nat (length (entries (ht_run (adds kvs) t))).
Proof.
  revert t. induction kvs as [|[k v] kvs IH]; intros t Hwf Hnd Hc Hlt; [done|].
  cbn [adds fmap list_fmap ht_run foldl ht_step fst snd].
  fold (adds kvs). fold (ht_run (adds kvs) (htAdd t k v).1).
  cbn [length] in Hlt.
  destruct (htAdd_count t k v Hwf Hc) as [Hc' Hle]; [lia|].
  apply IH; [by apply wf_table_htAdd|by apply no_dup_keys_htAdd|done|lia].
Qed.

(** X5. From a table of null buckets, after any sequence of fewer than
    2^64 [htAdd] calls, [numele] is the number of entries in the
    chains, which is the number of distinct keys added. *)
Theorem numele_counts_keys (kvs : list (list byte * Z)) :
  Z.of_nat (length kvs) < 2 ^ 64 →
  let t := ht_run (adds kvs) (htNew zeroed) in
  numele t = Z.of_nat (length (entries t))
  ∧ numele t = Z.of_nat (size (foldl map_step ∅ (adds kvs))).
Proof.
  intros Hlt t.
  destruct (ht_run_invariant (adds kvs) (htNew zeroed) wf_table_zeroed
              no_dup_keys_zeroed) as [Hwf Hnd]. fold t in Hwf, Hnd.
  assert (Hc : numele t = Z.of_nat (length (entries t))).
  { apply adds_count; [apply wf_table_zeroed|apply no_dup_keys_zeroed|..].
    - by rewrite entries_zeroed.
    - by rewrite entries_zeroed. }
  split; [done|]. rewrite Hc, <- size_ht_map by done. unfold t.
  rewrite ht_map_ht_run by (apply wf_table_zeroed || apply no_dup_keys_zeroed).
  by rewrite ht_map_zeroed.
Qed.

Lemma numele_counts_keys_witness :
  let t := ht_run (adds [(bytes "a", 1); (bytes "b", 2); (bytes "a", 3)])
             (htNew zeroed) in
  numele t = Z.of_nat (length (entries t))
  ∧ numele t = Z.of_nat (size (foldl map_step ∅
                 (adds [(bytes "a", 1); (bytes "b", 2); (bytes "a", 3)]))).
Proof.
  apply (numele_counts_keys [(bytes "a", 1); (bytes "b", 2); (bytes "a", 3)]).
  cbn [length]. lia.
Defined.

(** ** More on the key generators *)

Section Truncation.

Variable base : Z.
Variable dig : Z → byte.
Variable val : byte → Z.
Hypothesis base_gt_1 : 1 < base.
Hypothesis val_dig : ∀ d, 0 ≤ d < base → val (dig d) = d.

(** A digit string cut after [n] digits holds the number modulo
    [base ^ n]. *)
Lemma undigits_digits_lsb_mod n v :
  0 ≤ v →
  undigits base val (digits_lsb base dig n v) = v mod base ^ Z.of_nat n.
Proof.
  revert v. induction n as [|n IH]; intros v Hv.
  - cbn. by rewrite Z.mod_1_r.
  - cbn [digits_lsb undigits foldr].
    pose proof (Z.mod_pos_bound v base ltac:(lia)) as Hm.
    pose proof (Z.div_mod v base ltac:(lia)) as Hd.
    rewrite val_dig by done.
    rewrite Nat2Z.inj_succ, Z.pow_succ_r by lia.
    assert (0 < base ^ Z.of_nat n) by (apply Z.pow_pos_nonneg; lia).
    rewrite Z.rem_mul_r by lia.
    destruct (v / base =? 0) eqn:E.
    + apply Z.eqb_eq in E. rewrite E. cbn [foldr]. by rewrite Z.mod_0_l by lia.
    + fold (undigits base val (digits_lsb base dig n (v / base))).
      rewrite IH; [done|]. apply Z.div_pos; lia.
Qed.

Lemma digits_lsb_elem n v b :
  b ∈ digits_lsb base dig n v → ∃ d, 0 ≤ d < base ∧ b = dig d.
Proof.
  revert v. induction n as [|n IH]; intros v; cbn [digits_lsb].
  - by intros ?%elem_of_nil.
  - intros [->|Hb]%elem_of_cons.
    + eexists. split; [|done]. apply Z.mod_pos_bound. lia.
    + destruct (v / base =? 0); [by apply elem_of_nil in Hb|]. by eapply IH.
Qed.

End Truncation.

Lemma set_at_elem d : 0 ≤ d < setlen → set_at d ∈ set.
Proof.
  intros Hd.
  assert (H : Forall (λ d, set_at d ∈ set) (seqZ 0 62)).
  { apply (bool_decide_unpack _). vm_compute. exact I. }
  rewrite Forall_forall in H. apply H, elem_of_seqZ. unfold setlen in Hd. lia.
Qed.

(** The loop of [int2alphakey] leaves the bytes after the ones it
    stores as they were. *)
Lemma int2alphakey_loop_drop n s len i :
  0 ≤ len →
  drop (Z.to_nat (int2alphakey_loop n s len i).2) (int2alphakey_loop n s len i).1
  = drop (Z.to_nat (int2alphakey_loop n s len i).2) s.
Proof.
  revert s len i. induction n as [|n IH]; intros s len i Hlen; [done|].
  cbn [int2alphakey_loop].
  set (s1 := <[Z.to_nat len := set_at (i mod setlen)]> s).
  destruct (i / setlen =? 0).
  - cbn [fst snd]. unfold s1. apply drop_insert_lt. lia.
  - rewrite IH by lia.
    pose proof (int2alphakey_loop_len n s1 (len + 1) (i / setlen)).
    apply drop_insert_lt. lia.
Qed.

(** X6. [int2alphakey] on a buffer of at least [maxlen] bytes, with
    [maxlen] positive: the length returned is at most [maxlen - 1] (and
    at least 1 when there is room for a character), the key bytes are
    characters of the set, a zero byte follows them, and the size of
    the buffer and the bytes after the zero are unchanged. *)
Theorem int2alphakey_shape (s : list byte) (maxlen i : Z) :
  0 < maxlen → (Z.to_nat maxlen ≤ length s)%nat →
  let s' := (int2alphakey s maxlen i).1 in
  let len := (int2alphakey s maxlen i).2 in
  0 ≤ len ≤ maxlen - 1
  ∧ (1 < maxlen → 1 ≤ len)
  ∧ length s' = length s
  ∧ (∀ b, b ∈ take (Z.to_nat len) s' → b ∈ set)
  ∧ s' !! Z.to_nat len = Some x00
  ∧ drop (S (Z.to_nat len)) s' = drop (S (Z.to_nat len)) s.
Proof.
  intros Hm Hroom s' len.
  destruct (int2alphakey_key s maxlen i Hm Hroom) as (s0 & E & Hl & Ht).
  pose proof (int2alphakey_within s maxlen i ltac:(lia)) as Hw.
  unfold s', len. rewrite E in *. cbn [fst snd] in *. rewrite Nat2Z.id.
  split; [lia|]. split; [|split; [done|split; [|split]]].
  - intros H1. destruct (Z.to_nat (maxlen - 1)) as [|n] eqn:En; [lia|].
    cbn [digits_lsb length]. lia.
  - rewrite Ht. intros b (d & Hd & ->)%digits_lsb_elem; [|done].
    by apply set_at_elem.
  - revert E. unfold int2alphakey.
    destruct (Z.eqb_spec maxlen 0); [lia|].
    destruct (int2alphakey_loop_digits (Z.to_nat (maxlen - 1)) s 0 i
                ltac:(lia) ltac:(cbn; lia)) as (s1 & E1 & Hl1 & _).
    rewrite E1. intros [= <-].
    rewrite Z.add_0_l, Nat2Z.id. apply list_lookup_insert_eq. lia.
  - revert E. unfold int2alphakey.
    destruct (Z.eqb_spec maxlen 0); [lia|].
    pose proof (int2alphakey_loop_drop (Z.to_nat (maxlen - 1)) s 0 i
                  ltac:(lia)) as Hd.
    destruct (int2alphakey_loop _ _ _ _) as [s1 l1]. cbn [fst snd] in Hd.
    intros [= <- ->]. rewrite Nat2Z.id in Hd.
    rewrite drop_insert_lt by lia.
    set (k := length (digits_lsb _ _ _ _)) in *.
    replace (S k) with (k + 1)%nat by lia.
    by rewrite <- (drop_drop s1 1), <- (drop_drop s 1), Hd.
Qed.

Lemma int2alphakey_shape_witness :
  let s' := (int2alphakey buf64 3 77).1 in
  let len := (int2alphakey buf64 3 77).2 in
  0 ≤ len ≤ 3 - 1
  ∧ (1 < 3 → 1 ≤ len)
  ∧ length s' = length buf64
  ∧ (∀ b, b ∈ take (Z.to_nat len) s' → b ∈ set)
  ∧ s' !! Z.to_nat len = Some x00
  ∧ drop (S (Z.to_nat len)) s' = drop (S (Z.to_nat len)) buf64.
Proof. apply (int2alphakey_shape buf64 3 77); [lia|cbn; lia]. Defined.

(** X7. The key [int2alphakey] writes for an [i] in the range of
    [uint32_t] into a buffer of at least [maxlen] bytes decodes, as a
    base-62 numeral with the least significant digit first, to [i]
    modulo [62 ^ (maxlen - 1)]: to [i] itself when the buffer has room
    for all digits, to its low digits otherwise. *)
Theorem int2alphakey_decode (s : list byte) (maxlen i : Z) :
  0 < maxlen → (Z.to_nat maxlen ≤ length s)%nat → 0 ≤ i < 2 ^ 32 →
  let s' := (int2alphakey s maxlen i).1 in
  let len := (int2alphakey s maxlen i).2 in
  undigits setlen set_index (take (Z.to_nat len) s') = i mod setlen ^ (maxlen - 1)
  ∧ (i < setlen ^ (maxlen - 1) →
     undigits setlen set_index (take (Z.to_nat len) s') = i).
Proof.
  intros Hm Hroom Hi s' len.
  destruct (int2alphakey_key s maxlen i Hm Hroom) as (s0 & E & Hl & Ht).
  unfold s', len. rewrite E. cbn [fst snd]. rewrite Nat2Z.id, Ht.
  rewrite (undigits_digits_lsb_mod setlen set_at set_index ltac:(done)
             set_index_set_at) by lia.
  rewrite Z2Nat.id by lia. split; [done|].
  intros Hlt. apply Z.mod_small. lia.
Qed.

Lemma int2alphakey_decode_witness :
  let s' := (int2alphakey buf64 3 5000).1 in
  let len := (int2alphakey buf64 3 5000).2 in
  undigits setlen set_index (take (Z.to_nat len) s') = 5000 mod setlen ^ (3 - 1)
  ∧ (5000 < setlen ^ (3 - 1) →
     undigits setlen set_index (take (Z.to_nat len) s') = 5000).
Proof. apply (int2alphakey_decode buf64 3 5000); [lia|cbn; lia|lia]. Defined.

Lemma uchar_digit d : 0 ≤ d < 10 → uchar (digit d) = 48 + d.
Proof.
  intros Hd.
  assert (H : Forall (λ d, uchar (digit d) = 48 + d) (seqZ 0 10)).
  { apply (bool_decide_unpack _). vm_compute. exact I. }
  rewrite Forall_forall in H. apply H, elem_of_seqZ. lia.
Qed.

(** A number below [base ^ k] has at most [k] digits. *)
Lemma length_digits_lsb_small base dig n k v :
  1 < base → 0 ≤ v < base ^ Z.of_nat (S k) →
  (length (digits_lsb base dig n v) ≤ S k)%nat.
Proof.
  intros Hb. revert k v. induction n as [|n IH]; intros k v Hv; cbn; [lia|].
  destruct (Z.eqb_spec (v / base) 0) as [E|E]; cbn; [lia|].
  destruct k as [|k].
  - destruct E. apply Z.div_small. cbn in Hv. lia.
  - apply le_n_S, IH. split; [apply Z.div_pos; lia|].
    apply Z.div_lt_upper_bound; [lia|].
    rewrite (Nat2Z.inj_succ (S k)), Z.pow_succ_r in Hv by lia. lia.
Qed.

(** An index in the range of [uint32_t] has at most 10 decimal
    digits. *)
Lemma length_decimal_32 i :
  0 ≤ i < 2 ^ 32 → (1 ≤ length (decimal i) ≤ 10)%nat.
Proof.
  intros Hi. split; [apply length_decimal|].
  unfold decimal. rewrite length_rev.
  apply (length_digits_lsb_small 10 digit 20 9 i); lia.
Qed.





(** X8. In mode [KEY_INT], for an index [i] in the range of [uint32_t]
    and a buffer of at least [maxlen] bytes with [maxlen] above 10,
    [int2key] leaves the random stream alone and returns the number of
    decimal digits of [i], between 1 and 10; the key bytes are the
    characters '0' to '9', a zero byte follows them, and read as a
    decimal numeral they give [i] back. *)
Theorem int2key_INT_decode (s : list byte) (maxlen i : Z) (g : rand_state) :
  10 < maxlen → (Z.to_nat maxlen ≤ length s)%nat → 0 ≤ i < 2 ^ 32 →
  ∃ s' len,
    int2key s maxlen i KEY_INT g = Some (s', len, g)
    ∧ 1 ≤ len ≤ 10
    ∧ length s' = length s
    ∧ (∀ b, b ∈ take (Z.to_nat len) s' → 48 ≤ uchar b ≤ 57)
    ∧ s' !! Z.to_nat len = Some x00
    ∧ undigits 10 digit_value (rev (take (Z.to_nat len) s')) = i.
Proof.
  intros Hm Hroom Hi. unfold int2key. cbn [Z.eqb KEY_INT].
  pose proof (length_decimal_32 i Hi) as Hl.
  destruct (snprintf_lu_fits s maxlen i) as (s' & E & Hs' & Ht & Hz);
    [lia|done|].
  rewrite E. exists s', (Z.of_nat (length (decimal i))).
  rewrite Nat2Z.id, Ht.
  split; [done|]. split; [lia|]. split; [done|split; [|split]].
  - unfold decimal. intros b Hb%list_elem_of_In%in_rev%list_elem_of_In.
    apply digits_lsb_elem in Hb as (d & Hd & ->); [|lia].
    rewrite uchar_digit by done. lia.
  - exact Hz.
  - unfold decimal. rewrite rev_involutive.
    apply (undigits_digits_lsb 10 digit digit_value ltac:(lia)
             digit_value_digit 20%nat). lia.
Qed.

Lemma int2key_INT_decode_witness :
  ∃ s' len,
    int2key buf64 64 4294967295 KEY_INT rand0 = Some (s', len, rand0)
    ∧ 1 ≤ len ≤ 10
    ∧ length s' = length buf64
    ∧ (∀ b, b ∈ take (Z.to_nat len) s' → 48 ≤ uchar b ≤ 57)
    ∧ s' !! Z.to_nat len = Some x00
    ∧ undigits 10 digit_value (rev (take (Z.to_nat len) s')) = 4294967295.
Proof.
  apply (int2key_INT_decode buf64 64 4294967295 rand0); [lia|cbn; lia|lia].
Defined.

Lemma random_bytes_state n g :
  drawn (random_bytes n g).2 = (drawn g + n)%nat
  ∧ draws (random_bytes n g).2 = draws g
  ∧ length (random_bytes n g).1 = n.
Proof.
  revert g. induction n as [|n IH]; intros g; cbn [random_bytes].
  - cbn. by rewrite Nat.add_0_r.
  - unfold rand.
    specialize (IH {| draws := draws g; drawn := S (drawn g) |}).
    destruct (random_bytes n _) as [bs g2]. cbn [fst snd drawn draws length] in *.
    destruct IH as (-> & -> & ->). split; [lia|done].
Qed.

Lemma int2key_fill_drop n i s g :
  0 ≤ i →
  drop (Z.to_nat i + n) (int2key_fill n i s g).1 = drop (Z.to_nat i + n) s.
Proof.
  revert i s g. induction n as [|n IH]; intros i s g Hi; [done|].
  cbn [int2key_fill]. destruct (rand g) as [x g1].
  replace (Z.to_nat i + S n)%nat with (Z.to_nat (i + 1) + n)%nat by lia.
  rewrite IH by lia. apply drop_insert_lt. lia.
Qed.

(** X9. In mode [KEY_RANDOM], with a positive [maxlen] and a buffer of
    at least [maxlen] bytes, [int2key] returns a length below [maxlen]:
    the first draw of [rand()] modulo [maxlen].  It draws once more for
    each key byte, and leaves the size of the buffer and the bytes after
    the key unchanged. *)
Theorem int2key_RANDOM_bounds (s : list byte) (maxlen i : Z) (g : rand_state) :
  0 < maxlen → (Z.to_nat maxlen ≤ length s)%nat →
  ∃ s' len g',
    int2key s maxlen i KEY_RANDOM g = Some (s', len, g')
    ∧ len = (rand g).1 mod maxlen
    ∧ 0 ≤ len < maxlen
    ∧ length s' = length s
    ∧ drop (Z.to_nat len) s' = drop (Z.to_nat len) s
    ∧ drawn g' = (drawn g + 1 + Z.to_nat len)%nat
    ∧ draws g' = draws g.
Proof.
  intros Hm Hroom. unfold int2key. cbn [Z.eqb KEY_INT KEY_UNIQUE_ALPHA KEY_RANDOM Pos.eqb].
  destruct (Z.eqb_spec maxlen 0); [lia|].
  destruct (rand g) as [x g1] eqn:Er. cbn [fst].
  assert (Hr : 0 ≤ x mod maxlen < maxlen) by (apply Z.mod_pos_bound; lia).
  pose proof (int2key_fill_drop (Z.to_nat (x mod maxlen)) 0 s g1 ltac:(lia)) as Hd.
  destruct (int2key_fill_random (Z.to_nat (x mod maxlen)) 0 s g1)
    as (s' & E & Hl & _); [lia..|].
  rewrite E in *. cbn [fst] in Hd.
  destruct (random_bytes_state (Z.to_nat (x mod maxlen)) g1) as (Hn & Hs & _).
  eexists _, _, _. split; [done|]. split; [done|]. split; [done|].
  split; [done|]. split; [done|]. rewrite Hn, Hs.
  unfold rand in Er. injection Er as _ <-. cbn [drawn draws]. split; [lia|done].
Qed.

Lemma int2key_RANDOM_bounds_witness :
  ∃ s' len g',
    int2key buf64 64 0 KEY_RANDOM rand0 = Some (s', len, g')
    ∧ len = (rand rand0).1 mod 64
    ∧ 0 ≤ len < 64
    ∧ length s' = length buf64
    ∧ drop (Z.to_nat len) s' = drop (Z.to_nat len) buf64
    ∧ drawn g' = (drawn rand0 + 1 + Z.to_nat len)%nat
    ∧ draws g' = draws rand0.
Proof. apply (int2key_RANDOM_bounds buf64 64 0 rand0); [lia|cbn; lia]. Defined.

(** X10. With the capacity 64 that [fuzzTest] passes, [int2key] returns
    in every mode, for every index and buffer, a length between 0 and
    63: the conversion to [uint32_t] keeps it and the key lies inside
    the array. *)
Theorem int2key_64_length (s : list byte) (i mode : Z) (g : rand_state) :
  ∃ s' len g',
    int2key s 64 i mode g = Some (s', len, g')
    ∧ 0 ≤ len ≤ 63 ∧ uint32 len = len.
Proof.
  assert (H : ∃ s' len g', int2key s 64 i mode g = Some (s', len, g')
                ∧ 0 ≤ len ≤ 63).
  { unfold int2key.
    destruct (mode =? KEY_INT).
    { unfold snprintf_lu. cbn [Z.eqb]. pose proof (length_decimal i).
      eexists _, _, _. split; [done|]. lia. }
    destruct (mode =? KEY_UNIQUE_ALPHA).
    { pose proof (int2alphakey_within s 64 (int2int i) ltac:(lia)).
      destruct (int2alphakey _ _ _) as [s' len]. cbn [snd] in *.
      eexists _, _, _. split; [done|]. lia. }
    destruct (mode =? KEY_RANDOM); [|eexists _, _, _; split; [done|lia]].
    cbn [Z.eqb]. destruct (rand g) as [x g1].
    destruct (int2key_fill _ _ _ _) as [s' g2].
    eexists _, _, _. split; [done|].
    pose proof (Z.mod_pos_bound x 64). lia. }
  destruct H as (s' & len & g' & E & Hl). exists s', len, g'.
  split; [done|]. split; [done|]. apply Z.mod_small. lia.
Qed.

(** X11. What a caller observes of [int2key] on a 64-byte buffer (the
    key, the length and the random stream) is the same whatever the
    buffer held before the call, in every mode: the uninitialised array
    of [fuzzTest] cannot leak into a key. *)
Theorem int2key_uninitialised_buffer (s1 s2 : list byte) (i mode : Z) (g : rand_state) :
  length s1 = 64%nat → length s2 = 64%nat →
  observed (int2key s1 64 i mode g) = observed (int2key s2 64 i mode g).
Proof. apply int2key_buffer_irrelevant. Qed.

Lemma int2key_uninitialised_buffer_witness :
  observed (int2key buf64 64 7 KEY_RANDOM rand0)
  = observed (int2key (replicate 64 xff) 64 7 KEY_RANDOM rand0).
Proof. apply int2key_uninitialised_buffer; reflexivity. Defined.

(** ** The command line *)

Lemma main_args_None args b u f :
  ¬ Forall recognised args → main_args args b u f = None.
Proof.
  revert b u f. induction args as [|a args IH]; intros b u f Hno.
  - destruct Hno. constructor.
  - cbn [main_args]. repeat case_bool_decide; try done;
      apply IH; intros Hall; apply Hno; constructor; try done;
      unfold recognised; auto.
Qed.

Lemma main_args_Some args b u f :
  Forall recognised args →
  ∃ b' u' f', main_args args b u f = Some (b', u', f')
    ∧ (f' = true ↔ f = true ∨ "--fuzz"%string ∈ args).
Proof.
  intros Hall. revert b u f. induction Hall as [|a args Ha Hall IH]; intros b u f.
  - eexists _, _, _. split; [done|]. split; [auto|].
    intros [?|Hn]; [done|]. by apply elem_of_nil in Hn.
  - cbn [main_args]. destruct Ha as [-> | [-> | ->]].
    + rewrite bool_decide_eq_true_2 by done.
      destruct (IH true u f) as (b' & u' & f' & -> & Hf).
      eexists _, _, _. split; [done|]. rewrite Hf.
      rewrite elem_of_cons. intuition discriminate.
    + rewrite bool_decide_eq_false_2, bool_decide_eq_true_2 by done.
      destruct (IH b u true) as (b' & u' & f' & -> & Hf).
      eexists _, _, _. split; [done|]. rewrite Hf.
      rewrite elem_of_cons. intuition.
    + rewrite !bool_decide_eq_false_2, bool_decide_eq_true_2 by done.
      destruct (IH b true f) as (b' & u' & f' & -> & Hf).
      eexists _, _, _. split; [done|]. rewrite Hf.
      rewrite elem_of_cons. intuition discriminate.
Qed.

Lemma main_with_args {R : RaxOps} htNotFound prog a args w :
  main htNotFound (prog :: a :: args) w
  = match main_args (a :: args) false false false with
    | None => Some (1, print (OutUsage prog) w)
    | Some (_, _, do_fuzz) =>
        if do_fuzz then main htNotFound [prog] w else Some (0, w)
    end.
Proof.
  unfold main.
  assert ((1 <? Z.of_nat (length (prog :: a :: args))) = true) as ->.
  { apply Z.ltb_lt. cbn [length]. lia. }
  change (drop 1 (prog :: a :: args)) with (a :: args).
  change (1 <? Z.of_nat (length [prog])) with false.
  destruct (main_args (a :: args) false false false) as [[[b u] [|]]|];
    reflexivity.
Qed.

(** X12. With at least one argument, [main] looks at all of them
    first: if one is not [--bench], [--fuzz] or [--units], the usage
    message is printed and the status is 1, and no test has run; if all
    are recognised and [--fuzz] is not among them, nothing runs, nothing
    is printed and the status is 0; if [--fuzz] is among them, in any
    position and any number of times, the run is the one without
    arguments. *)
Theorem main_arguments {R : RaxOps} (htNotFound : Z) (prog : string)
    (args : list string) (w : world) :
  args ≠ [] →
  (¬ Forall recognised args →
     main htNotFound (prog :: args) w = Some (1, print (OutUsage prog) w))
  ∧ (Forall recognised args → "--fuzz"%string ∉ args →
     main htNotFound (prog :: args) w = Some (0, w))
  ∧ (Forall recognised args → "--fuzz"%string ∈ args →
     main htNotFound (prog :: args) w = main htNotFound [prog] w).
Proof.
  intros Hne. destruct args as [|a args]; [done|].
  rewrite main_with_args. split; [|split].
  - intros Hno. by rewrite main_args_None.
  - intros Hall Hnf.
    destruct (main_args_Some _ false false false Hall) as (b & u & f & -> & Hf).
    destruct f; [|done]. destruct Hnf. by destruct (proj1 Hf eq_refl).
  - intros Hall Hin.
    destruct (main_args_Some _ false false false Hall) as (b & u & f & -> & Hf).
    destruct f; [done|]. by discriminate (proj2 Hf (or_intror Hin)).
Qed.

Lemma main_arguments_witness :
  @main deaf_rax 0 ["rax-test"; "--units"; "--bench"]%string world0
    = Some (0, world0)
  ∧ @main deaf_rax 0 ["rax-test"; "--units"; "-v"]%string world0
    = Some (1, print (OutUsage "rax-test") world0).
Proof.
  assert (H1 : Forall recognised ["--units"; "--bench"]%string).
  { constructor; [unfold recognised; auto|].
    constructor; [unfold recognised; auto|]. constructor. }
  assert (H2 : "--fuzz"%string ∉ ["--units"; "--bench"]%string).
  { intros [Hn | [Hn | Hn]%elem_of_cons]%elem_of_cons; try discriminate Hn.
    by apply elem_of_nil in Hn. }
  assert (H3 : ¬ Forall recognised ["--units"; "-v"]%string).
  { intros [_ [Hv _]%Forall_cons]%Forall_cons.
    destruct Hv as [Hv | [Hv | Hv]]; discriminate Hv. }
  split.
  - exact (proj1 (proj2 (@main_arguments deaf_rax 0 "rax-test"%string
                           ["--units"; "--bench"]%string world0 ltac:(done)))
             H1 H2).
  - exact (proj1 (@main_arguments deaf_rax 0 "rax-test"%string
                    ["--units"; "-v"]%string world0 ltac:(done)) H3).
Defined.

(** ** The fuzz test against the map *)

Lemma oracle_ok_zeroed : oracle_ok (htNew zeroed).
Proof.
  split; [apply wf_table_zeroed|]. split; [apply no_dup_keys_zeroed|].
  by rewrite entries_zeroed.
Qed.

Lemma oracle_ok_htAdd t s d :
  oracle_ok t → Z.of_nat (length (entries t)) + 1 < 2 ^ 64 →
  oracle_ok (htAdd t s d).1
  ∧ (length (entries (htAdd t s d).1) ≤ S (length (entries t)))%nat.
Proof.
  intros (Hwf & Hnd & Hc) Hlt.
  destruct (htAdd_count t s d Hwf Hc Hlt) as [Hc' Hle].
  split; [|done]. split; [by apply wf_table_htAdd|].
  split; [by apply no_dup_keys_htAdd|done].
Qed.

Lemma insert_keys_cons m k ks :
  insert_keys m (k :: ks) = insert_keys (<[k := htHash k]> m) ks.
Proof. done. Qed.

(** The values of the map are the hashes of their keys, and its keys
    are the keys inserted. *)
Lemma insert_keys_Some m ks k v :
  (∀ k v, m !! k = Some v → v = htHash k) →
  insert_keys m ks !! k = Some v →
  v = htHash k ∧ (k ∈ ks ∨ is_Some (m !! k)).
Proof.
  revert m. induction ks as [|k0 ks IH]; intros m Hm; cbn [insert_keys foldl].
  - intros H. split; [by eapply Hm|right; eauto].
  - fold (insert_keys (<[k0 := htHash k0]> m) ks). intros H.
    apply IH in H as [-> [Hin|Hs]].
    + split; [done|]. left. by right.
    + split; [done|]. destruct (decide (k0 = k)) as [->|Hne].
      * left. by left.
      * rewrite lookup_insert_ne in Hs by done. by right.
    + intros k' v'. destruct (decide (k0 = k')) as [->|Hne].
      * rewrite lookup_insert_eq. by intros [= <-].
      * rewrite lookup_insert_ne by done. apply Hm.
Qed.

Lemma insert_keys_elem m ks k : k ∈ ks → insert_keys m ks !! k = Some (htHash k).
Proof.
  revert m. induction ks as [|k0 ks IH] using rev_ind; intros m.
  - by intros ?%elem_of_nil.
  - unfold insert_keys. rewrite foldl_app. cbn [foldl].
    fold (insert_keys m ks). intros [Hin|Hin]%elem_of_app.
    + destruct (decide (k0 = k)) as [->|Hne]; [by rewrite lookup_insert_eq|].
      rewrite lookup_insert_ne by done. by apply IH.
    + apply list_elem_of_singleton in Hin as ->. by rewrite lookup_insert_eq.
Qed.

(** The iteration loop passes exactly when the oracle, the index and
    the recomputed hash agree on every key yielded, and then counts the
    keys in a [size_t]. *)
Lemma fuzzTest_iterate_inl {R : RaxOps} htNotFound keys ht rx c numkeys :
  0 ≤ c < 2 ^ 64 →
  fuzzTest_iterate htNotFound keys ht rx c = inl numkeys ↔
  (∀ k, k ∈ keys →
     htFind htNotFound ht k = raxFind rx k
     ∧ htFind htNotFound ht k = htHash k)
  ∧ numkeys = (c + Z.of_nat (length keys)) mod 2 ^ 64.
Proof.
  revert c. induction keys as [|k keys IH]; intros c Hc; cbn [fuzzTest_iterate length].
  - rewrite Z.add_0_r, Z.mod_small by done. split.
    + intros [= <-]. split; [|done]. by intros k ?%elem_of_nil.
    + by intros [_ ->].
  - assert (Hu : 0 ≤ uint64 (c + 1) < 2 ^ 64) by (apply Z.mod_pos_bound; lia).
    assert (Hm : (uint64 (c + 1) + Z.of_nat (length keys)) mod 2 ^ 64
                 = (c + Z.of_nat (S (length keys))) mod 2 ^ 64).
    { unfold uint64. rewrite Zplus_mod_idemp_l. f_equal. lia. }
    repeat case_bool_decide; cbn [orb].
    + split; [done|]. intros [Hall _].
      destruct (Hall k ltac:(by left)). congruence.
    + split; [done|]. intros [Hall _].
      destruct (Hall k ltac:(by left)). congruence.
    + split; [done|]. intros [Hall _].
      destruct (Hall k ltac:(by left)). congruence.
    + rewrite IH by done. rewrite Hm. split.
      * intros [Hall ->]. split; [|done].
        intros k' [->|Hin]%elem_of_cons; [|by apply Hall].
        by split.
      * intros [Hall ->]. split; [|done].
        intros k' Hin. apply Hall. by right.
Qed.

Section InsertLoop.

Context {R : RaxOps}.

(** The insertion loop keeps the oracle a table state whose counter is
    its number of entries, and a loop that runs to its end leaves in
    the oracle the keys generated, each bound to its hash. *)
Lemma fuzzTest_insert_oracle keymode n i ht rx g ok ht' rx' g' :
  oracle_ok ht →
  Z.of_nat (length (entries ht) + n) < 2 ^ 64 →
  fuzzTest_insert keymode n i ht rx g = Some (ok, ht', rx', g') →
  oracle_ok ht'
  ∧ (ok = true →
     ht_map ht' = insert_keys (ht_map ht) (gen_keys keymode n i g)
     ∧ length (gen_keys keymode n i g) = n).
Proof.
  revert i ht rx g. induction n as [|n IH]; intros i ht rx g Hok Hlt.
  - cbn [fuzzTest_insert gen_keys]. intros [= <- <- <- <-]. done.
  - cbn [fuzzTest_insert gen_keys].
    destruct (int2key buf64 64 (uint32 i) keymode g) as [[[buf len] g1]|];
      cbn [mbind option_bind]; [|done].
    set (k := take (Z.to_nat (uint32 len)) buf).
    destruct (oracle_ok_htAdd ht k (htHash k) Hok ltac:(lia)) as [Hok1 Hle].
    pose proof (proj1 (ht_map_htAdd ht k (htHash k) (proj1 Hok)
                         (proj1 (proj2 Hok)))) as Hmap.
    destruct (htAdd ht k (htHash k)) as [ht1 r1].
    destruct (raxInsert rx k (htHash k)) as [rx1 r2]. cbn [fst] in *.
    case_bool_decide.
    + intros [= <- <- <- <-]. done.
    + intros E. apply IH in E as [Hok' Hm]; [|done|lia].
      split; [done|]. intros Ht. destruct (Hm Ht) as [-> Hn].
      cbn [length]. by rewrite insert_keys_cons, Hmap, Hn.
Qed.

Context {L : RaxLaws R}.

(** Against an index that behaves as a finite map, no insertion is
    reported differently and the loop runs to its end, the index
    standing for the map of the oracle. *)
Lemma fuzzTest_insert_lawful keymode n i ht rx g :
  oracle_ok ht → rax_ok rx → rax_abs rx = ht_map ht →
  Z.of_nat (length (entries ht) + n) < 2 ^ 64 →
  ∃ ht' rx' g',
    fuzzTest_insert keymode n i ht rx g = Some (true, ht', rx', g')
    ∧ rax_ok rx' ∧ rax_abs rx' = ht_map ht'.
Proof.
  revert i ht rx g. induction n as [|n IH]; intros i ht rx g Hok Hrx Habs Hlt.
  - cbn [fuzzTest_insert]. eauto 10.
  - cbn [fuzzTest_insert].
    destruct (int2key_total buf64 64 (uint32 i) keymode g)
      as [[[buf len] g1] ->]; [done|]. cbn [mbind option_bind].
    set (k := take (Z.to_nat (uint32 len)) buf).
    destruct (oracle_ok_htAdd ht k (htHash k) Hok ltac:(lia)) as [Hok1 Hle].
    destruct (ht_map_htAdd ht k (htHash k) (proj1 Hok) (proj1 (proj2 Hok)))
      as [Hmap Hflag].
    pose proof (rax_ok_insert rx k (htHash k) Hrx) as Hrx1.
    pose proof (rax_abs_insert rx k (htHash k) Hrx) as Habs1.
    pose proof (rax_insert_new rx k (htHash k) Hrx) as Hflag2.
    destruct (htAdd ht k (htHash k)) as [ht1 r1].
    destruct (raxInsert rx k (htHash k)) as [rx1 r2]. cbn [fst snd] in *.
    rewrite bool_decide_eq_false_2.
    + apply IH; [done|done| |lia]. by rewrite Habs1, Hmap, Habs.
    + intros Hne. apply Hne. by rewrite Hflag, Hflag2, Habs.
Qed.

End InsertLoop.

Lemma dom_insert_keys m ks :
  dom (insert_keys m ks) = list_to_set ks ∪ dom m.
Proof.
  revert m. induction ks as [|k ks IH]; intros m.
  - cbn. set_solver.
  - rewrite insert_keys_cons, IH, dom_insert_L. cbn [list_to_set]. set_solver.
Qed.

Lemma length_remove_dups {A} `{EqDecision A} (l : list A) :
  (length (remove_dups l) ≤ length l)%nat.
Proof.
  induction l as [|x l IH]; cbn [remove_dups length]; [done|].
  destruct (decide_rel elem_of x l); cbn [length]; lia.
Qed.

Lemma remove_dups_NoDup {A} `{EqDecision A} (l : list A) :
  NoDup l → remove_dups l = l.
Proof.
  induction 1 as [|x l Hx Hl IH]; cbn [remove_dups]; [done|].
  destruct (decide_rel elem_of x l); [done|]. by rewrite IH.
Qed.

(** The number of keys bound after the insertions is the number of
    distinct keys inserted. *)
Lemma size_insert_keys ks :
  size (insert_keys ∅ ks) = length (remove_dups ks).
Proof.
  rewrite <- (size_dom (D := gset (list byte))), dom_insert_keys, dom_empty_L.
  rewrite <- (size_list_to_set (C := gset (list byte)) (remove_dups ks))
    by apply NoDup_remove_dups.
  f_equal. apply set_eq. intros k.
  rewrite elem_of_union, !elem_of_list_to_set, elem_of_remove_dups. set_solver.
Qed.

(** After an insertion loop that ran to its end the oracle holds
    exactly the keys generated. *)
Lemma fuzzTest_insert_keys {R : RaxOps} (htNotFound keymode : Z) (n : nat)
    (rx : rax) (g : rand_state) (ht' : hashtable) (rx' : rax) (g' : rand_state) :
  Z.of_nat n < 2 ^ 64 →
  fuzzTest_insert keymode n 0 (htNew zeroed) rx g = Some (true, ht', rx', g') →
  let ks := gen_keys keymode n 0 g in
  length ks = n
  ∧ numele ht' = Z.of_nat (length (remove_dups ks))
  ∧ (∀ k, k ∈ ks → htFind htNotFound ht' k = htHash k)
  ∧ (∀ k, k ∉ ks → htFind htNotFound ht' k = htNotFound).
Proof.
  intros Hn E ks.
  assert (Hb : Z.of_nat (length (entries (htNew zeroed)) + n) < 2 ^ 64).
  { rewrite entries_zeroed. cbn [length Nat.add]. lia. }
  destruct (fuzzTest_insert_oracle _ _ _ _ _ _ _ _ _ _ oracle_ok_zeroed Hb E)
    as [(Hwf & Hnd & Hc) Hm].
  destruct (Hm eq_refl) as [Hmap Hlen]. rewrite ht_map_zeroed in Hmap.
  fold ks in Hmap, Hlen. split; [done|]. split; [|split].
  - by rewrite Hc, <- size_ht_map, Hmap, size_insert_keys.
  - intros k Hk. rewrite htFind_ht_map, Hmap by done.
    by rewrite insert_keys_elem.
  - intros k Hk. rewrite htFind_ht_map, Hmap by done.
    destruct (insert_keys ∅ ks !! k) as [v|] eqn:Ev; [|done].
    apply insert_keys_Some in Ev as [_ [Hin|[x Hs]]].
    + by destruct Hk.
    + rewrite lookup_empty in Hs. discriminate Hs.
    + intros k0 v0. rewrite lookup_empty. discriminate.
Qed.

(** X13. When the insertion loop of [fuzzTest], started on a table of
    null buckets with fewer than 2^64 iterations to run, runs to its
    end, the oracle holds exactly the keys generated: [numele] is the
    number of distinct keys, [htFind] returns the hash of the key for
    each of them and [htNotFound] for every other key. *)
Theorem fuzzTest_insert_populates {R : RaxOps} (htNotFound keymode : Z) (n : nat)
    (rx : rax) (g : rand_state) (ht' : hashtable) (rx' : rax) (g' : rand_state) :
  Z.of_nat n < 2 ^ 64 →
  fuzzTest_insert keymode n 0 (htNew zeroed) rx g = Some (true, ht', rx', g') →
  let ks := gen_keys keymode n 0 g in
  length ks = n
  ∧ numele ht' = Z.of_nat (length (remove_dups ks))
  ∧ (∀ k, k ∈ ks → htFind htNotFound ht' k = htHash k)
  ∧ (∀ k, k ∉ ks → htFind htNotFound ht' k = htNotFound).
Proof. apply fuzzTest_insert_keys. Qed.

Lemma fuzzTest_insert_populates_witness :
  ∃ ht' rx' g',
    @fuzzTest_insert map_rax KEY_INT 3 0 (htNew zeroed) ∅ rand0
      = Some (true, ht', rx', g')
    ∧ numele ht' = Z.of_nat (length (remove_dups (gen_keys KEY_INT 3 0 rand0)))
    ∧ ∀ k, k ∉ gen_keys KEY_INT 3 0 rand0 → htFind 0 ht' k = 0.
Proof.
  destruct (@fuzzTest_insert_lawful map_rax map_rax_laws KEY_INT 3 0
              (htNew zeroed) ∅ rand0 oracle_ok_zeroed I)
    as (ht' & rx' & g' & E & _).
  - by rewrite ht_map_zeroed.
  - rewrite entries_zeroed. cbn [length Nat.add]. lia.
  - exists ht', rx', g'. split; [exact E|].
    pose proof (@fuzzTest_insert_populates map_rax 0 KEY_INT 3 ∅ rand0 ht' rx' g'
                  ltac:(lia) E) as H.
    exact (conj (proj1 (proj2 H)) (proj2 (proj2 (proj2 H)))).
Defined.

Section FuzzTestFacts.

Context {R : RaxOps}.
Variable htNotFound : Z.

(** What [fuzzTest] does after an insertion loop that ran to its
    end. *)
Lemma fuzzTest_n_after_insert n keymode w ht rx g :
  fuzzTest_insert keymode n 0 (htNew (heap w (mallocs w))) raxNew (rng w)
  = Some (true, ht, rx, g) →
  fuzzTest_n htNotFound n keymode w
  = let w1 := {| rng := g; heap := heap w; mallocs := S (mallocs w);
                 printed := printed w ++ [OutFuzzTest keymode] |} in
    if bool_decide (numele ht ≠ rax_numele rx)
    then Some (1, print (OutCountMismatch (numele ht) (rax_numele rx)) w1)
    else
      match fuzzTest_iterate htNotFound (raxIterate rx) ht rx 0 with
      | inr (val1, val2, expected) =>
          Some (1, print (OutValueMismatch val1 val2 expected)
                     (print (OutInserted (numele ht)) w1))
      | inl numkeys =>
          if bool_decide (numele ht ≠ numkeys)
          then Some (1, print (OutIterMismatch numkeys (numele ht))
                          (print (OutInserted (numele ht)) w1))
          else Some (0, print (OutInserted (numele ht)) w1)
      end.
Proof.
  intros E. unfold fuzzTest_n. cbn [print rng heap mallocs printed].
  rewrite E. reflexivity.
Qed.

(** X14. A run of [fuzzTest] that returns 0, on a zero-filled block
    and with a sentinel [htNotFound] that is not a hash value, has
    checked this about the index: every insertion was reported as the
    oracle reported it, the [numele] of the index is the number of
    distinct keys generated, the iterator yielded that many keys
    (counted in a [size_t]), and every key it yielded is one of the keys
    generated and is bound in the index to its hash. *)
Theorem fuzzTest_pass_sound (n : nat) (keymode : Z) (w w' : world) :
  fresh_block w → Z.of_nat n < 2 ^ 64 → ¬ (0 ≤ htNotFound < 100000) →
  fuzzTest_n htNotFound n keymode w = Some (0, w') →
  let ks := gen_keys keymode n 0 (rng w) in
  ∃ ht rx g,
    fuzzTest_insert keymode n 0 (htNew zeroed) raxNew (rng w)
      = Some (true, ht, rx, g)
    ∧ rax_numele rx = Z.of_nat (length (remove_dups ks))
    ∧ uint64 (Z.of_nat (length (raxIterate rx))) = rax_numele rx
    ∧ ∀ k, k ∈ raxIterate rx → k ∈ ks ∧ raxFind rx k = htHash k.
Proof.
  intros Hf Hn Hnf E ks. unfold fresh_block in Hf.
  destruct (fuzzTest_insert_total keymode n 0 (htNew zeroed) raxNew (rng w))
    as [[[[ok ht] rx] g] Ei].
  destruct ok.
  - pose proof (fuzzTest_insert_keys htNotFound keymode n raxNew (rng w)
                  ht rx g Hn Ei) as (_ & Hc & Hin & Hout).
    fold ks in Hc, Hin, Hout.
    rewrite <- Hf in Ei. rewrite (fuzzTest_n_after_insert _ _ _ _ _ _ Ei) in E.
    cbn zeta in E. exists ht, rx, g. rewrite Hf in Ei. split; [exact Ei|].
    case_bool_decide as Hcount; [discriminate E|].
    destruct (fuzzTest_iterate htNotFound (raxIterate rx) ht rx 0)
      as [numkeys|[[v1 v2] e]] eqn:Eit; [|discriminate E].
    case_bool_decide as Hnum; [discriminate E|].
    apply fuzzTest_iterate_inl in Eit as [Hall Hk]; [|lia].
    split; [congruence|]. split.
    { unfold uint64. rewrite Z.add_0_l in Hk. congruence. }
    intros k Hk'. destruct (Hall k Hk') as [H1 H2]. split; [|congruence].
    destruct (decide (k ∈ ks)) as [|Hno]; [done|].
    rewrite (Hout k Hno) in H2. destruct Hnf. rewrite H2.
    rewrite <- HT_TABLE_SIZE_eq. apply htHash_range.
  - exfalso. revert E. unfold fuzzTest_n.
    cbn [print rng heap mallocs printed]. rewrite Hf, Ei.
    cbn [mbind option_bind negb]. discriminate.
Qed.

(** Outside the mode [KEY_RANDOM] neither [int2key] nor a run of
    [fuzzTest] draws from the random stream. *)
Lemma int2key_rng s maxlen i mode g s' len g' :
  mode ≠ KEY_RANDOM →
  int2key s maxlen i mode g = Some (s', len, g') → g' = g.
Proof.
  intros Hm. unfold int2key.
  destruct (mode =? KEY_INT).
  { destruct (snprintf_lu s maxlen i). congruence. }
  destruct (mode =? KEY_UNIQUE_ALPHA).
  { destruct (int2alphakey s maxlen (int2int i)). congruence. }
  destruct (Z.eqb_spec mode KEY_RANDOM); [contradiction|]. congruence.
Qed.

Lemma fuzzTest_insert_rng keymode n i ht rx g ok ht' rx' g' :
  keymode ≠ KEY_RANDOM →
  fuzzTest_insert keymode n i ht rx g = Some (ok, ht', rx', g') → g' = g.
Proof.
  intros Hm. revert i ht rx. induction n as [|n IH]; intros i ht rx.
  { cbn [fuzzTest_insert]. congruence. }
  cbn [fuzzTest_insert].
  destruct (int2key buf64 64 (uint32 i) keymode g) as [[[buf len] g1]|] eqn:E;
    cbn [mbind option_bind]; [|discriminate].
  apply int2key_rng in E; [|exact Hm]. subst g1.
  destruct (htAdd ht _ _) as [ht1 r1]. destruct (raxInsert rx _ _) as [rx1 r2].
  case_bool_decide; [congruence|]. apply IH.
Qed.

Lemma fuzzTest_n_rng n keymode w r w' :
  keymode ≠ KEY_RANDOM →
  fuzzTest_n htNotFound n keymode w = Some (r, w') → rng w' = rng w.
Proof.
  intros Hm. unfold fuzzTest_n. cbn [print rng heap mallocs printed].
  destruct (fuzzTest_insert _ _ _ _ _ _) as [[[[ok ht] rx] g]|] eqn:E;
    cbn [mbind option_bind]; [|discriminate].
  apply fuzzTest_insert_rng in E; [|exact Hm]. subst g.
  destruct ok; cbn [negb]; [|by intros [= _ <-]].
  case_bool_decide; [by intros [= _ <-]|].
  destruct (fuzzTest_iterate _ _ _ _ _) as [numkeys|[[v1 v2] e]];
    [|by intros [= _ <-]].
  case_bool_decide; by intros [= _ <-].
Qed.

Context {L : RaxLaws R}.

(** Against an index that behaves as a finite map every check of
    [fuzzTest] passes. *)
Lemma fuzzTest_n_lawful (n : nat) (keymode : Z) (w : world) :
  fresh_block w → Z.of_nat n < 2 ^ 64 →
  ∃ g,
    fuzzTest_n htNotFound n keymode w
    = Some (0, {| rng := g; heap := heap w; mallocs := S (mallocs w);
                  printed := printed w ++
                    [OutFuzzTest keymode;
                     OutInserted (Z.of_nat (length (remove_dups
                        (gen_keys keymode n 0 (rng w)))))] |}).
Proof.
  intros Hf Hn. unfold fresh_block in Hf.
  destruct (fuzzTest_insert_lawful keymode n 0 (htNew zeroed) raxNew (rng w)
              oracle_ok_zeroed rax_ok_new)
    as (ht & rx & g & Ei & Hrx & Habs).
  { by rewrite rax_abs_new, ht_map_zeroed. }
  { rewrite entries_zeroed. cbn [length Nat.add]. lia. }
  assert (Hb : Z.of_nat (length (entries (htNew zeroed)) + n) < 2 ^ 64).
  { rewrite entries_zeroed. cbn [length Nat.add]. lia. }
  destruct (fuzzTest_insert_oracle _ _ _ _ _ _ _ _ _ _ oracle_ok_zeroed Hb Ei)
    as [(Hwf & Hnd & Hc) Hm].
  destruct (Hm eq_refl) as [Hmap Hlen]. rewrite ht_map_zeroed in Hmap.
  set (ks := gen_keys keymode n 0 (rng w)) in *.
  assert (Hsize : numele ht = Z.of_nat (length (remove_dups ks))).
  { by rewrite Hc, <- size_ht_map, Hmap, size_insert_keys. }
  assert (Hle : (length (remove_dups ks) ≤ n)%nat).
  { rewrite <- Hlen. apply length_remove_dups. }
  exists g. rewrite <- Hf in Ei. rewrite (fuzzTest_n_after_insert _ _ _ _ _ _ Ei).
  cbn zeta.
  assert (Hnum : rax_numele rx = numele ht).
  { by rewrite rax_count, Habs, size_ht_map, Hc. }
  rewrite bool_decide_eq_false_2 by (intros Hne; by apply Hne).
  assert (Eit : fuzzTest_iterate htNotFound (raxIterate rx) ht rx 0
                = inl (numele ht)).
  { apply fuzzTest_iterate_inl; [lia|]. split.
    - intros k Hk. rewrite rax_iterate in Hk by done.
      apply list_elem_of_fmap in Hk as ([k' v] & -> & Hkv%elem_of_map_to_list).
      cbn [fst]. rewrite (rax_find rx k' v Hrx Hkv).
      rewrite htFind_ht_map by done. rewrite Habs in Hkv. rewrite Hkv.
      split; [done|]. cbn [default]. rewrite Hmap in Hkv.
      apply insert_keys_Some in Hkv as [-> _]; [done|].
      intros k0 v0. rewrite lookup_empty. discriminate.
    - rewrite rax_iterate, length_fmap, length_map_to_list by done.
      rewrite Habs, size_ht_map, <- Hc by done.
      rewrite Z.add_0_l, Z.mod_small; [done|]. rewrite Hsize. lia. }
  rewrite Eit. rewrite bool_decide_eq_false_2 by (intros Hne; by apply Hne).
  unfold print. cbn [rng heap mallocs printed]. rewrite <- app_assoc, Hsize.
  reflexivity.
Qed.

(** X15. Against an index that behaves as a finite map, a run of
    [fuzzTest] with fewer than 2^64 insertions on a zero-filled block
    returns 0 in every mode, after printing the banner and the number
    of distinct keys generated. *)
Theorem fuzzTest_lawful_passes (n : nat) (keymode : Z) (w : world) :
  fresh_block w → Z.of_nat n < 2 ^ 64 →
  ∃ g,
    fuzzTest_n htNotFound n keymode w
    = Some (0, {| rng := g; heap := heap w; mallocs := S (mallocs w);
                  printed := printed w ++
                    [OutFuzzTest keymode;
                     OutInserted (Z.of_nat (length (remove_dups
                        (gen_keys keymode n 0 (rng w)))))] |}).
Proof. apply fuzzTest_n_lawful. Qed.

End FuzzTestFacts.

Lemma fresh_block_world0 : fresh_block world0.
Proof. reflexivity. Qed.

Lemma fuzzTest_lawful_passes_witness :
  ∃ g,
    @fuzzTest_n map_rax 0 5 KEY_RANDOM world0
    = Some (0, {| rng := g; heap := heap world0; mallocs := S (mallocs world0);
                  printed := printed world0 ++
                    [OutFuzzTest KEY_RANDOM;
                     OutInserted (Z.of_nat (length (remove_dups
                        (gen_keys KEY_RANDOM 5 0 (rng world0)))))] |}).
Proof.
  apply (@fuzzTest_lawful_passes map_rax 0 map_rax_laws 5 KEY_RANDOM world0
           fresh_block_world0).
  cbn. lia.
Defined.

Lemma fuzzTest_pass_sound_witness :
  ∃ ht rx g,
    @fuzzTest_insert map_rax KEY_INT 5 0 (htNew zeroed) ∅ (rng world0)
      = Some (true, ht, rx, g)
    ∧ @rax_numele map_rax rx
      = Z.of_nat (length (remove_dups (gen_keys KEY_INT 5 0 (rng world0))))
    ∧ uint64 (Z.of_nat (length (@raxIterate map_rax rx))) = @rax_numele map_rax rx
    ∧ ∀ k, k ∈ @raxIterate map_rax rx →
        k ∈ gen_keys KEY_INT 5 0 (rng world0) ∧ @raxFind map_rax rx k = htHash k.
Proof.
  destruct (@fuzzTest_n_lawful map_rax (-1) map_rax_laws 5 KEY_INT world0
              fresh_block_world0 ltac:(cbn; lia)) as [g E].
  exact (@fuzzTest_pass_sound map_rax (-1) 5 KEY_INT world0 _
           fresh_block_world0 ltac:(cbn; lia) ltac:(lia) E).
Defined.

(** ** The keys of the deterministic modes *)

Lemma gen_keys_INT n i g :
  gen_keys KEY_INT n i g
  = (λ j : nat, decimal (uint32 (i + Z.of_nat j))) <$> seq 0 n.
Proof.
  revert i. induction n as [|n IH]; intros i; [done|].
  cbn [gen_keys seq fmap list_fmap]. unfold int2key. cbn [Z.eqb KEY_INT].
  destruct (snprintf_lu_key buf64 64 (uint32 i)) as (s' & -> & _ & Ht);
    [lia|cbn; lia|].
  pose proof (length_decimal (uint32 i)) as Hl.
  assert (uint32 (Z.of_nat (length (decimal (uint32 i))))
          = Z.of_nat (length (decimal (uint32 i)))) as ->.
  { apply Z.mod_small. lia. }
  rewrite Nat2Z.id, Ht, Z.add_0_r, IH. f_equal.
  rewrite <- fmap_S_seq, <- list_fmap_compose.
  apply list_fmap_ext. intros _ j _. unfold compose.
  by replace (i + 1 + Z.of_nat j) with (i + Z.of_nat (S j)) by lia.
Qed.

Lemma gen_keys_UNIQUE_ALPHA n i g :
  gen_keys KEY_UNIQUE_ALPHA n i g
  = (λ j : nat, digits_lsb setlen set_at 63 (int2int (uint32 (i + Z.of_nat j))))
      <$> seq 0 n.
Proof.
  revert i. induction n as [|n IH]; intros i; [done|].
  cbn [gen_keys seq fmap list_fmap]. unfold int2key.
  cbn [Z.eqb KEY_INT KEY_UNIQUE_ALPHA Pos.eqb].
  destruct (int2alphakey_key buf64 64 (int2int (uint32 i)))
    as (s' & -> & _ & Ht); [lia|cbn; lia|].
  change (Z.to_nat (64 - 1)) with 63%nat in *.
  set (ds := digits_lsb setlen set_at 63 (int2int (uint32 i))) in *.
  pose proof (length_digits_lsb setlen set_at 63 (int2int (uint32 i))) as Hl.
  fold ds in Hl.
  assert (uint32 (Z.of_nat (length ds)) = Z.of_nat (length ds)) as ->.
  { apply Z.mod_small. lia. }
  rewrite Nat2Z.id, Ht, IH. unfold ds. rewrite Z.add_0_r. f_equal.
  rewrite <- fmap_S_seq, <- list_fmap_compose.
  apply list_fmap_ext. intros _ j _. unfold compose.
  by replace (i + 1 + Z.of_nat j) with (i + Z.of_nat (S j)) by lia.
Qed.

(** The keys of consecutive indices in the deterministic modes. *)
Lemma gen_keys_NoDup (keymode : Z) (n : nat) (i : Z) (g : rand_state) :
  keymode = KEY_INT ∨ keymode = KEY_UNIQUE_ALPHA →
  0 ≤ i → i + Z.of_nat n ≤ 2 ^ 32 →
  NoDup (gen_keys keymode n i g)
  ∧ length (gen_keys keymode n i g) = n
  ∧ remove_dups (gen_keys keymode n i g) = gen_keys keymode n i g.
Proof.
  intros Hmode Hi Hn.
  assert (Hu : ∀ j, j ∈ seq 0 n → uint32 (i + Z.of_nat j) = i + Z.of_nat j).
  { intros j Hj%elem_of_seq. apply Z.mod_small. lia. }
  assert (Hnd : NoDup (gen_keys keymode n i g)).
  { destruct Hmode as [-> | ->].
    - rewrite gen_keys_INT. apply NoDup_fmap_2_strong; [|apply NoDup_seq].
      intros x y Hx Hy E. rewrite (Hu x Hx), (Hu y Hy) in E.
      apply elem_of_seq in Hx, Hy. apply decimal_inj in E; lia.
    - rewrite gen_keys_UNIQUE_ALPHA.
      apply NoDup_fmap_2_strong; [|apply NoDup_seq].
      intros x y Hx Hy E. rewrite (Hu x Hx), (Hu y Hy) in E.
      apply elem_of_seq in Hx, Hy.
      pose proof (int2int_range (i + Z.of_nat x)).
      pose proof (int2int_range (i + Z.of_nat y)).
      assert (2 ^ 32 < setlen ^ Z.of_nat 63) by (vm_compute; done).
      apply (digits_lsb_inj setlen set_at set_index ltac:(done)
               set_index_set_at 63%nat) in E; [|lia..].
      apply int2int_inj in E; lia. }
  split; [done|]. split; [|by apply remove_dups_NoDup].
  destruct Hmode as [-> | ->].
  - by rewrite gen_keys_INT, length_fmap, length_seq.
  - by rewrite gen_keys_UNIQUE_ALPHA, length_fmap, length_seq.
Qed.

(** X16. In the modes [KEY_INT] and [KEY_UNIQUE_ALPHA] the keys that
    the insertion loop of [fuzzTest] generates for [n] consecutive
    indices within the 32-bit range are pairwise distinct, whatever the
    random stream: [n] keys without repetition. *)
Theorem gen_keys_distinct (keymode : Z) (n : nat) (i : Z) (g : rand_state) :
  keymode = KEY_INT ∨ keymode = KEY_UNIQUE_ALPHA →
  0 ≤ i → i + Z.of_nat n ≤ 2 ^ 32 →
  NoDup (gen_keys keymode n i g)
  ∧ length (gen_keys keymode n i g) = n
  ∧ remove_dups (gen_keys keymode n i g) = gen_keys keymode n i g.
Proof. apply gen_keys_NoDup. Qed.

Lemma gen_keys_distinct_witness :
  NoDup (gen_keys KEY_UNIQUE_ALPHA (Z.to_nat 1000000) 0 rand0)
  ∧ length (gen_keys KEY_UNIQUE_ALPHA (Z.to_nat 1000000) 0 rand0)
    = Z.to_nat 1000000
  ∧ remove_dups (gen_keys KEY_UNIQUE_ALPHA (Z.to_nat 1000000) 0 rand0)
    = gen_keys KEY_UNIQUE_ALPHA (Z.to_nat 1000000) 0 rand0.
Proof.
  apply (gen_keys_distinct KEY_UNIQUE_ALPHA (Z.to_nat 1000000) 0 rand0);
    [by right|lia|lia].
Defined.

(** ** The whole run against an index that behaves as a finite map *)

(** The number of keys generated is the number of iterations asked
    for, at most. *)
Lemma length_gen_keys keymode n i g :
  (length (gen_keys keymode n i g) ≤ n)%nat.
Proof.
  revert i g. induction n as [|n IH]; intros i g; cbn [gen_keys length]; [lia|].
  destruct (int2key _ _ _ _ _) as [[[buf len] g']|]; cbn [length]; [|lia].
  specialize (IH (i + 1) g'). lia.
Qed.

(** X17. When every block [malloc] hands out is zero-filled and the
    index behaves as a finite map, [main] without arguments exits with
    status 0: the three runs pass, the first two report 1000000
    elements (the keys of [KEY_INT] and [KEY_UNIQUE_ALPHA] are pairwise
    distinct, and these two runs leave the random stream as it was) and
    the third reports the number of distinct keys among the 1000000
    keys of mode [KEY_RANDOM] drawn from the stream the process started
    with. *)
Theorem main_lawful_passes {R : RaxOps} {L : RaxLaws R} (htNotFound : Z)
    (prog : string) (w : world) :
  (∀ j, heap w j = zeroed) →
  let d := Z.of_nat (length (remove_dups
             (gen_keys KEY_RANDOM (Z.to_nat 1000000) 0 (rng w)))) in
  ∃ w',
    main htNotFound [prog] w = Some (0, w')
    ∧ 0 ≤ d ≤ 1000000
    ∧ mallocs w' = (mallocs w + 3)%nat
    ∧ printed w' = printed w ++
        [OutFuzzTest KEY_INT; OutInserted 1000000;
         OutFuzzTest KEY_UNIQUE_ALPHA; OutInserted 1000000;
         OutFuzzTest KEY_RANDOM; OutInserted d].
Proof.
  intros Hheap.
  assert (HN : Z.of_nat (Z.to_nat 1000000) = 1000000) by (apply Z2Nat.id; lia).
  set (N := Z.to_nat 1000000) in *.
  assert (Hlt : Z.of_nat N < 2 ^ 64) by lia.
  assert (Hrun : ∀ keymode w0, (∀ j, heap w0 j = zeroed) →
    ∃ g, fuzzTest htNotFound keymode w0
         = Some (0, {| rng := g; heap := heap w0; mallocs := S (mallocs w0);
                       printed := printed w0 ++
                         [OutFuzzTest keymode;
                          OutInserted (Z.of_nat (length (remove_dups
                             (gen_keys keymode N 0 (rng w0)))))] |})).
  { intros keymode w0 H0. apply (fuzzTest_n_lawful htNotFound N keymode w0); [|done].
    apply H0. }
  assert (Hrng : ∀ keymode w0 r w1, keymode ≠ KEY_RANDOM →
    fuzzTest htNotFound keymode w0 = Some (r, w1) → rng w1 = rng w0).
  { intros keymode w0 r w1. apply (fuzzTest_n_rng htNotFound N). }
  assert (Hd : ∀ keymode g, keymode = KEY_INT ∨ keymode = KEY_UNIQUE_ALPHA →
    Z.of_nat (length (remove_dups (gen_keys keymode N 0 g))) = 1000000).
  { intros keymode g Hk.
    destruct (gen_keys_NoDup keymode N 0 g Hk ltac:(lia) ltac:(lia))
      as (_ & Hl & ->). by rewrite Hl. }
  destruct (Hrun KEY_INT w Hheap) as [g1 E1].
  assert (H1 : g1 = rng w).
  { exact (Hrng KEY_INT w 0 _ ltac:(discriminate) E1). }
  subst g1. rewrite Hd in E1 by by left.
  set (w1 := mkWorld (rng w) _ _ _) in E1.
  destruct (Hrun KEY_UNIQUE_ALPHA w1 Hheap) as [g2 E2].
  assert (H2 : g2 = rng w).
  { exact (Hrng KEY_UNIQUE_ALPHA w1 0 _ ltac:(discriminate) E2). }
  subst g2. rewrite Hd in E2 by by right.
  set (w2 := mkWorld (rng w) _ _ _) in E2.
  destruct (Hrun KEY_RANDOM w2 Hheap) as [g3 E3].
  change (rng w2) with (rng w) in E3.
  intros d. fold d in E3.
  set (w3 := mkWorld g3 _ _ _) in E3.
  exists w3. split; [|split; [|split]].
  - unfold main. change (1 <? Z.of_nat (length [prog])) with false. cbv iota.
    rewrite (main_fuzz_eq _ _ _ _ _ _ E1). cbn [mbind option_bind].
    rewrite (main_fuzz_eq _ _ _ _ _ _ E2). cbn [mbind option_bind].
    rewrite (main_fuzz_eq _ _ _ _ _ _ E3). reflexivity.
  - unfold d. split; [lia|].
    pose proof (length_remove_dups (gen_keys KEY_RANDOM N 0 (rng w))) as H1.
    pose proof (length_gen_keys KEY_RANDOM N 0 (rng w)) as H2. lia.
  - unfold w3, w2, w1. cbn [mallocs]. lia.
  - unfold w3, w2, w1. cbn [printed]. by rewrite <- !app_assoc.
Qed.

Lemma main_lawful_passes_witness :
  let d := Z.of_nat (length (remove_dups
             (gen_keys KEY_RANDOM (Z.to_nat 1000000) 0 (rng world0)))) in
  ∃ w',
    @main map_rax 0 ["rax-test"%string] world0 = Some (0, w')
    ∧ 0 ≤ d ≤ 1000000
    ∧ mallocs w' = (mallocs world0 + 3)%nat
    ∧ printed w' = printed world0 ++
        [OutFuzzTest KEY_INT; OutInserted 1000000;
         OutFuzzTest KEY_UNIQUE_ALPHA; OutInserted 1000000;
         OutFuzzTest KEY_RANDOM; OutInserted d].
Proof.
  apply (@main_lawful_passes map_rax map_rax_laws 0 "rax-test"%string world0).
  intros j. reflexivity.
Defined.
